(** * Template-dependency resolver of the page server (main.go)

    A shallow embedding of [main.go]: the inclusion-directive pattern
    [reTmpl], the template helper [Dict], the recursive resolver
    [getAllTmplName] and the catch-all handler registered by [initURL],
    followed by the properties of the specification that they settle.

    Go strings are byte sequences; they are modelled by [string] (one
    [ascii] per byte).  A Go [map[string]T] is a [gmap string T], a
    slice is a [list]. *)

From Stdlib Require Import String Ascii List ZArith Lia.
From stdpp Require Import gmap strings list fin_maps.

Local Open Scope string_scope.
Local Open Scope list_scope.
Set Warnings "-register-all,-clear-no-such-hyp".
#[local] Arguments String.append !s1 s2 : simpl nomatch.

(** ** The [regexp] package, as far as [reTmpl] needs it *)

Module regexp.

(** Syntax trees of the operators that occur in the pattern of
    [reTmpl]: literals, [.], negated classes, [?], [*] over a one-byte
    operand, concatenation and a capturing group.

    The package matches runes of UTF-8 text.  For [reTmpl] matching byte
    by byte gives the same matches: its literals are ASCII, which never
    occur inside the encoding of another rune, and its two classes
    accept every byte that is not ASCII. *)
Inductive CharClass : Type :=
| OpLiteral (c : ascii)
| OpAnyCharNotNL
| OpNotCharClass (cs : list ascii).

Inductive Regexp : Type :=
| OpEmptyMatch
| OpChar (cc : CharClass)
| OpStar (cc : CharClass)
| OpQuest (r : Regexp)
| OpConcat (r1 r2 : Regexp)
| OpCapture (idx : nat) (r : Regexp).

Definition newline : ascii := Ascii.ascii_of_nat 10.

Definition accepts (cc : CharClass) (c : ascii) : bool :=
  match cc with
  | OpLiteral c' => Ascii.eqb c' c
  | OpAnyCharNotNL => negb (Ascii.eqb c newline)
  | OpNotCharClass cs => negb (existsb (Ascii.eqb c) cs)
  end.

(** The text consumed between the input [s] and its suffix [rest]. *)
Definition consumed (s rest : string) : string :=
  substring 0 (String.length s - String.length rest) s.

Section Backtrack.
Context {R : Type}.

(** Greedy [cc*]: the longest run first, then shorter ones. *)
Fixpoint star (p : ascii -> bool) (s : string)
    (k : string -> option R) : option R :=
  match s with
  | String c s' =>
      if p c then
        match star p s' k with
        | Some res => Some res
        | None => k s
        end
      else k s
  | EmptyString => k s
  end.

(** The package returns, of the matches that begin at a position, the
    one a backtracking search finds first.  [k] is the rest of the
    pattern; [caps] holds the submatches found so far. *)
Fixpoint backtrack (r : Regexp) (s : string) (caps : list string)
    (k : string -> list string -> option R) : option R :=
  match r with
  | OpEmptyMatch => k s caps
  | OpChar cc =>
      match s with
      | String c s' => if accepts cc c then k s' caps else None
      | EmptyString => None
      end
  | OpStar cc => star (accepts cc) s (fun s' => k s' caps)
  | OpQuest r1 =>
      match backtrack r1 s caps k with
      | Some res => Some res
      | None => k s caps
      end
  | OpConcat r1 r2 =>
      backtrack r1 s caps (fun s' caps' => backtrack r2 s' caps' k)
  | OpCapture idx r1 =>
      backtrack r1 s caps
        (fun s' caps' => k s' (<[idx := consumed s s']> caps'))
  end.
End Backtrack.

Fixpoint numSubexp (r : Regexp) : nat :=
  match r with
  | OpEmptyMatch | OpChar _ | OpStar _ => 0
  | OpQuest r1 => numSubexp r1
  | OpConcat r1 r2 => numSubexp r1 `max` numSubexp r2
  | OpCapture idx r1 => idx `max` numSubexp r1
  end.

(** A match anchored at the start of [s]: the submatches (index 0 is the
    whole match) and the unread rest of the input. *)
Definition matchAt (re : Regexp) (s : string) : option (list string * string) :=
  backtrack re s (replicate (S (numSubexp re)) "")
    (fun rest caps => Some (<[0 := consumed s rest]> caps, rest)).

(** Successive non-overlapping matches, leftmost first.  [skip] counts
    the bytes of the previous match that are still to be passed over. *)
Fixpoint findAllFrom (re : Regexp) (s : string) (skip : nat) : list (list string) :=
  match skip with
  | S skip' =>
      match s with
      | String _ s' => findAllFrom re s' skip'
      | EmptyString => []
      end
  | O =>
      match matchAt re s with
      | Some (m, rest) =>
          m :: match s with
               | String _ s' =>
                   findAllFrom re s' (String.length s - String.length rest - 1)
               | EmptyString => []
               end
      | None =>
          match s with
          | String _ s' => findAllFrom re s' 0
          | EmptyString => []
          end
      end
  end.

(** [re.FindAllStringSubmatch(s, -1)]. *)
Definition FindAllStringSubmatch (re : Regexp) (s : string) : list (list string) :=
  findAllFrom re s 0.

Fixpoint literal (s : string) : Regexp :=
  match s with
  | EmptyString => OpEmptyMatch
  | String c s' => OpConcat (OpChar (OpLiteral c)) (literal s')
  end.

End regexp.

Import regexp.

(** The double-quote byte (0x22). *)
Definition dquote : ascii := Ascii.ascii_of_nat 34.

(** [q s] is [s] between double quotes. *)
Definition q (s : string) : string := String dquote (s +:+ String dquote "").

(** [reTmpl], compiled by [init].  The pattern reads, piece by piece:
    two opening braces, an optional dash, an optional space, the word
    template and a space, a double quote, the group Name (submatch 1:
    any run of bytes other than the two parentheses and the space), a
    double quote, an optional space, any run of bytes other than the
    newline, an optional space, an optional dash, two closing braces. *)
Definition reTmpl : Regexp :=
  OpConcat (literal "{{")
  (OpConcat (OpQuest (OpChar (OpLiteral "-")))
  (OpConcat (OpQuest (OpChar (OpLiteral " ")))
  (OpConcat (literal "template ")
  (OpConcat (OpChar (OpLiteral dquote))
  (OpConcat (OpCapture 1 (OpStar (OpNotCharClass ["("; ")"; " "]%char)))
  (OpConcat (OpChar (OpLiteral dquote))
  (OpConcat (OpQuest (OpChar (OpLiteral " ")))
  (OpConcat (OpStar OpAnyCharNotNL)
  (OpConcat (OpQuest (OpChar (OpLiteral " ")))
  (OpConcat (OpQuest (OpChar (OpLiteral "-")))
            (literal "}}"))))))))))).


(** ** Values of type [any] and the helper [Dict] *)

(** The dynamic values of a parameter of type [any].  [VDefined T v]
    is a value of a defined type [T] whose underlying value is [v]
    (such as [template.HTML], a defined type over [string]). *)
Inductive any : Type :=
| VNil
| VBool (b : bool)
| VInt (n : Z)
| VString (s : string)
| VMap (m : gmap string any)
| VDefined (type : string) (v : any).

Module reflect.
Inductive Kind : Type := Invalid | Bool | Int | String | Map.

(** [reflect.ValueOf(v).Kind()]: the kind of the dynamic type; the
    zero [Value] of a nil interface has kind [Invalid]. *)
Fixpoint ValueOf_Kind (v : any) : Kind :=
  match v with
  | VNil => Invalid
  | VBool _ => Bool
  | VInt _ => Int
  | VString _ => String
  | VMap _ => Map
  | VDefined _ v' => ValueOf_Kind v'
  end.
End reflect.

(** The name of the dynamic type, as a failed type assertion prints it. *)
Definition typeName (v : any) : string :=
  match v with
  | VNil => "<nil>"
  | VBool _ => "bool"
  | VInt _ => "int"
  | VString _ => "string"
  | VMap _ => "map[string]interface {}"
  | VDefined type _ => type
  end.

(** A Go [error] value, by its message. *)
Definition error : Type := string.

(** The result pair [(a, err)] of a Go function: [Ok a] is [(a, nil)],
    [Err e] is the zero value with the non-nil error [e]. *)
Inductive result (A : Type) : Type :=
| Ok (a : A)
| Err (e : error).
Arguments Ok {A} a.
Arguments Err {A} e.

(** How a call ends: it returns, or it stops in a run-time panic. *)
Inductive outcome (A : Type) : Type :=
| Returns (a : A)
| Panics (msg : string).
Arguments Returns {A} a.
Arguments Panics {A} msg.

(** The [for] loop of [Dict]: one iteration takes [values[0]],
    [values[1]] and [values[2:]].  On a list of fewer than two values
    the statement panics, and the run-time system reports the bounds of
    the slice expression. *)
Fixpoint Dict_loop (dict : gmap string any) (values : list any)
    : outcome (result (gmap string any)) :=
  match values with
  | [] => Panics "runtime error: slice bounds out of range [2:0]"
  | [_] => Panics "runtime error: slice bounds out of range [2:1]"
  | key :: val :: values' =>
      match reflect.ValueOf_Kind key with
      | reflect.String =>
          (* dict[key.(string)] = val *)
          match key with
          | VString k =>
              let dict' := <[k := val]> dict in
              if (length values' =? 0)%nat then Returns (Ok dict')
              else Dict_loop dict' values'
          | _ => Panics ("interface conversion: interface {} is "
                         +:+ typeName key +:+ ", not string")
          end
      | _ => Returns (Err ("type must equal to " +:+ q "string"))
      end
  end.

Definition Dict (values : list any) : outcome (result (gmap string any)) :=
  if negb (length values mod 2 =? 0)%nat
  then Returns (Err "parameters must be even")
  else Dict_loop ∅ values.

(** ** The [path] and [path/filepath] functions the handler calls

    The server runs on a system whose path separator is the slash, so
    [filepath.Base] and [filepath.Ext] agree with their [path]
    counterparts.  The functions are written over the slash-separated
    elements of a path. *)

(** The elements between the slashes of [s]; never the empty list. *)
Fixpoint splitSlash (s : string) : list string :=
  match s with
  | EmptyString => [""]
  | String c s' =>
      if Ascii.eqb c "/" then "" :: splitSlash s'
      else match splitSlash s' with
           | e :: es => String c e :: es
           | [] => [String c ""]
           end
  end.

Fixpoint joinSlash (es : list string) : string :=
  match es with
  | [] => ""
  | [e] => e
  | e :: es' => e +:+ "/" +:+ joinSlash es'
  end.

(** [s] without its trailing slashes. *)
Fixpoint trimRightSlash (s : string) : string :=
  match s with
  | EmptyString => ""
  | String c s' =>
      match trimRightSlash s' with
      | EmptyString => if Ascii.eqb c "/" then "" else String c ""
      | t => String c t
      end
  end.

(** The suffix of [s] that starts at its last dot, or the empty string. *)
Fixpoint fromLastDot (s : string) : string :=
  match s with
  | EmptyString => ""
  | String c s' =>
      match fromLastDot s' with
      | EmptyString => if Ascii.eqb c "." then s else ""
      | t => t
      end
  end.

Module filepath.
(** [filepath.Base]: the last element of the path, trailing slashes
    removed first; a dot for the empty path, a slash for a path of
    slashes only. *)
Definition Base (path : string) : string :=
  if path =? "" then "."
  else
    let e := List.last (splitSlash (trimRightSlash path)) "" in
    if e =? "" then "/" else e.

(** [filepath.Ext]: the suffix beginning at the final dot in the final
    element of the path; empty if there is no dot. *)
Definition Ext (path : string) : string :=
  fromLastDot (List.last (splitSlash path) "").
End filepath.

Module path.
(** One element of the lexical processing of [path.Clean]; [out] is
    the stack of elements kept so far, the last one first.  A double
    dot removes the element before it, stays if there is none to
    remove in a relative path, and is dropped at the root. *)
Definition cleanStep (rooted : bool) (out : list string) (e : string) : list string :=
  if (e =? "") || (e =? ".") then out
  else if e =? ".." then
    match out with
    | top :: out' => if top =? ".." then e :: out else out'
    | [] => if rooted then [] else [e]
    end
  else e :: out.

Definition Clean (path : string) : string :=
  if path =? "" then "."
  else
    let rooted := String.prefix "/" path in
    let out := foldl (cleanStep rooted) [] (splitSlash path) in
    let body := joinSlash (rev out) in
    if rooted then "/" +:+ body
    else if body =? "" then "." else body.

(** [path.Join]: the elements are joined by slashes from the first
    non-empty one on, and the result is cleaned; empty elements only
    give the empty string. *)
Definition Join (elem : list string) : string :=
  if (sum_list (String.length <$> elem) =? 0)%nat then ""
  else
    Clean (foldl (fun buf e =>
                    if (0 <? String.length buf)%nat || negb (e =? "")
                    then (if (0 <? String.length buf)%nat then buf +:+ "/" else buf) +:+ e
                    else buf) "" elem).
End path.

(** ** The response writer, the configuration and the template engine *)

(** What a handler has done to its [http.ResponseWriter]: the header
    map, the status code once the header is written, and the body. *)
Record ResponseWriter : Type := mkResponseWriter {
  header : gmap string string;
  status : option nat;
  body : string
}.

Definition newResponse : ResponseWriter := mkResponseWriter ∅ None "".

Definition StatusOK : nat := 200.
Definition StatusBadRequest : nat := 400.

Definition Header_Set (key value : string) (w : ResponseWriter) : ResponseWriter :=
  mkResponseWriter (<[key := value]> (header w)) (status w) (body w).

(** The first call fixes the status code; later calls change nothing. *)
Definition WriteHeader (code : nat) (w : ResponseWriter) : ResponseWriter :=
  match status w with
  | Some _ => w
  | None => mkResponseWriter (header w) (Some code) (body w)
  end.

(** [Write] sends the header with [StatusOK] if it is not yet written. *)
Definition Write (b : string) (w : ResponseWriter) : ResponseWriter :=
  let w := WriteHeader StatusOK w in
  mkResponseWriter (header w) (status w) (body w +:+ b).

(** The status code the client receives. *)
Definition statusCode (w : ResponseWriter) : nat := default StatusOK (status w).

Record ContextT : Type := { Site : gmap string any }.
Record ConfigT : Type := { IsEmbed : bool; SiteContext : ContextT }.

(** The package [html/template], of which the handler uses [New],
    [Funcs], the parsing of one source text into the template of a given
    name, and [Execute], which writes to the response as it goes and may
    stop with an error after part of the output. *)
Class TemplateEngine : Type := {
  Template : Type;
  template_New : string -> Template;
  template_Funcs :
    Template -> gmap string (list any -> outcome (result (gmap string any))) -> Template;
  template_Parse : Template -> string -> string -> result Template;
  template_Execute : Template -> ResponseWriter -> ContextT -> ResponseWriter * option error
}.

Inductive route : Type :=
| RenderTemplate (curSrc : string)
| Default.

(** [%+v] of a slice of strings. *)
Definition fmtSlice (l : list string) : string :=
  "[" +:+ String.concat " " l +:+ "]".

(** ** The resolver [getAllTmplName] *)

(** Names of the templates used in one file: the loop that fills
    [curTmplSet] from the submatch 1 of every match. *)
Definition addTmplName (set : gmap string string) (match_ : list string)
    : gmap string string :=
  let tmplName := nth 1 match_ "" in
  match set !! tmplName with
  | Some _ => set
  | None => <[tmplName := tmplName]> set
  end.

Definition curTmplSet (matchList : list (list string)) : gmap string string :=
  foldl addTmplName ∅ matchList.

(** The submatch 1 of every match, in order. *)
Definition submatchNames (matchList : list (list string)) : list string :=
  (fun m => nth 1 m "") <$> matchList.

Section Server.
(** The two stores of template sources: the embedded archive and the
    directory tree of the working directory, each a finite map from
    the path of a regular file to its content. *)
Variable UrlFS : gmap string string.
Variable diskFS : gmap string string.

Definition UrlFS_ReadFile (name : string) : result string :=
  match UrlFS !! name with
  | Some content => Ok content
  | None => Err ("open " +:+ name +:+ ": file does not exist")
  end.

(** [os.ReadFile] below the working directory.  The store is keyed by
    cleaned paths and the name is cleaned before the lookup.  The
    handler and the collectors pass cleaned paths, for which this is
    what the system does; a name that the system resolves otherwise
    than its cleaned form (a slash after the name of a file, a double
    dot behind a directory that does not exist) is outside the model. *)
Definition os_ReadFile (name : string) : result string :=
  match diskFS !! path.Clean name with
  | Some content => Ok content
  | None => Err ("open " +:+ name +:+ ": no such file or directory")
  end.

(** The [range allTmpl] loop of [getAllTmplName]; [rec] is the
    recursive call, [None] when it does not return. *)
Fixpoint rangeAllTmpl (rec : string -> option (result (list string)))
    (set : gmap string string) (filterTmpl : list string)
    (allTmpl : list string) : option (list string) :=
  match allTmpl with
  | [] => Some filterTmpl
  | tmplFilepath :: rest =>
      match set !! filepath.Base tmplFilepath with
      | Some _ =>
          let filterTmpl := filterTmpl ++ [tmplFilepath] in
          match rec tmplFilepath with
          | None => None
          | Some r =>
              let fList := match r with Ok l => l | Err _ => [] end in
              rangeAllTmpl rec set
                (if (0 <? length fList)%nat then filterTmpl ++ fList
                 else filterTmpl) rest
          end
      | None => rangeAllTmpl rec set filterTmpl rest
      end
  end.

(** [getAllTmplName]; [fuel] bounds the depth of the recursion and
    [None] says that this depth did not suffice. *)
Fixpoint getAllTmplName (fuel : nat) (filePath : string)
    (allTmpl : list string) (isEmbed : bool)
    : option (result (list string)) :=
  match fuel with
  | O => None
  | S fuel' =>
      match (if isEmbed then UrlFS_ReadFile filePath
             else os_ReadFile filePath) with
      | Err err => Some (Err err)
      | Ok content =>
          let matchList := FindAllStringSubmatch reTmpl content in
          if (length matchList =? 0)%nat then Some (Ok [])
          else
            Ok <$> rangeAllTmpl
                     (fun p => getAllTmplName fuel' p allTmpl isEmbed)
                     (curTmplSet matchList) [] allTmpl
      end
  end.

(** *** The handler of the pattern [/] *)

Variable Config : ConfigT.
Variable tmplFileList : list string.
Context {engine : TemplateEngine}.

(** [t.ParseFiles] reads and parses the named files in order and stops
    at the first failure; each file defines the template named by its
    base name. *)
Fixpoint parseFiles (readFile : string -> result string) (t : Template)
    (filenames : list string) : result Template :=
  match filenames with
  | [] => Ok t
  | filename :: rest =>
      match readFile filename with
      | Err err => Err err
      | Ok text =>
          match template_Parse t (filepath.Base filename) text with
          | Err err => Err err
          | Ok t' => parseFiles readFile t' rest
          end
      end
  end.

Definition ParseFiles (t : Template) (filenames : list string) : result Template :=
  match filenames with
  | [] => Err "html/template: no files named in call to ParseFiles"
  | _ => parseFiles os_ReadFile t filenames
  end.

(** [t.ParseFS(UrlFS, ...)] takes its arguments as glob patterns; a
    path without pattern bytes matches the file of that name, and a
    pattern that matches no file is an error, which names the pattern
    between backquotes.  The model covers the paths without pattern
    bytes (star, question mark, opening bracket, backslash): every
    argument is looked up as the name of a file. *)
Definition ParseFS (t : Template) (patterns : list string) : result Template :=
  match List.find (fun p => bool_decide (UrlFS !! p = None)) patterns with
  | Some p => Err ("template: pattern matches no files: `" +:+ p +:+ "`")
  | None =>
      match patterns with
      | [] => Err "html/template: no files named in call to ParseFiles"
      | _ => parseFiles UrlFS_ReadFile t patterns
      end
  end.

(** The [switch] on the extension of the request path up to the
    template case: the mapped source path, or the [default] case. *)
Definition htmlToGohtml (curSrc : string) : outcome route :=
  if (String.length curSrc <? 4)%nat
  then Panics "slice bounds out of range"
  else Returns (RenderTemplate
                  (substring 0 (String.length curSrc - 4) curSrc +:+ "gohtml")).

Definition routePath (URLPath : string) : outcome route :=
  let curSrc := path.Join ["./src"; URLPath] in
  let ext := filepath.Ext URLPath in
  if ext =? "" then htmlToGohtml (path.Join [curSrc; "index.html"])
  else if ext =? ".html" then htmlToGohtml curSrc
  else if ext =? ".gohtml" then Returns (RenderTemplate curSrc)
  else Returns Default.

(** The template files of a page: the result of [getAllTmplName] with
    the page itself appended. *)
Definition resolvedBundle (fuel : nat) (curSrc : string)
    : option (result (list string)) :=
  match getAllTmplName fuel curSrc tmplFileList (IsEmbed Config) with
  | None => None
  | Some (Err err) => Some (Err err)
  | Some (Ok filterTmpl) => Some (Ok (filterTmpl ++ [curSrc]))
  end.

(** The line printed by [fmt.Printf] for the bundle. *)
Definition printedLine (filterTmpl : list string) : string :=
  "Templates used on this page:" +:+ fmtSlice filterTmpl +:+ String newline "".

(** The new template named after the page, with [Dict] registered as
    [dict], parsed from the files of the bundle. *)
Definition compileBundle (curSrc : string) (filterTmpl : list string)
    : result Template :=
  let t := template_Funcs (template_New (filepath.Base curSrc))
             {[ "dict" := Dict ]} in
  if IsEmbed Config then ParseFS t filterTmpl else ParseFiles t filterTmpl.

(** The template case.  The result is the response and the text
    printed on the standard output. *)
Definition renderTemplate (fuel : nat) (curSrc : string) (w : ResponseWriter)
    : option (ResponseWriter * string) :=
  let w := Header_Set "Content-Type" "text/html; charset=utf-8" w in
  match resolvedBundle fuel curSrc with
  | None => None
  | Some (Err err) => Some (WriteHeader StatusBadRequest w, "")
  | Some (Ok filterTmpl) =>
      let stdout := printedLine filterTmpl in
      match compileBundle curSrc filterTmpl with
      | Err err => Some (Write err (WriteHeader StatusBadRequest w), stdout)
      | Ok t => Some ((template_Execute t w (SiteContext Config)).1, stdout)
      end
  end.

Definition handler (fuel : nat) (URLPath : string) (w : ResponseWriter)
    : option (outcome (ResponseWriter * string)) :=
  match routePath URLPath with
  | Panics msg => Some (Panics msg)
  | Returns Default =>
      (* the file server is constructed and not called *)
      Some (Returns (w, ""))
  | Returns (RenderTemplate curSrc) => Returns <$> renderTemplate fuel curSrc w
  end.
End Server.

(** ** Sample sites

    Small template trees on which the statements below are evaluated. *)

(** An inclusion directive as page authors write it. *)
Definition tmplDirective (name : string) : string :=
  "{{template " +:+ q name +:+ " .}}".

Definition lines (l : list string) : string :=
  String.concat (String newline "") l.

(** The directive with the text of its argument. *)
Definition tmplDirectiveWith (name args : string) : string :=
  "{{template " +:+ q name +:+ " " +:+ args +:+ "}}".

(** Three directives on one line, the last two for the same template. *)
Definition sameLinePage : string :=
  tmplDirective "y.gohtml" +:+ " " +:+ tmplDirective "x.gohtml"
  +:+ " " +:+ tmplDirective "x.gohtml".

(** Every byte of [s] satisfies [p]. *)
Fixpoint allBytes (p : ascii -> bool) (s : string) : bool :=
  match s with
  | EmptyString => true
  | String c s' => p c && allBytes p s'
  end.

Definition noneOf (cs : list ascii) (c : ascii) : bool :=
  negb (existsb (Ascii.eqb c) cs).

(** No closing brace stands before the end of the first line of [s]. *)
Fixpoint noCloseOnLine (s : string) : bool :=
  match s with
  | EmptyString => true
  | String c s' =>
      Ascii.eqb c newline || (negb (Ascii.eqb c "}") && noCloseOnLine s')
  end.

(** A line of a template file with at most one directive: text, or a
    directive between two texts. *)
Inductive Line : Type :=
| Plain (text : string)
| Include (before name args after : string).

Definition lineText (l : Line) : string :=
  match l with
  | Plain text => text
  | Include before name args after =>
      before +:+ tmplDirectiveWith name args +:+ after
  end.

Definition lineName (l : Line) : option string :=
  match l with
  | Plain _ => None
  | Include _ name _ _ => Some name
  end.

(** The match that the directive of a line gives: the directive and its
    name. *)
Definition lineMatch (l : Line) : option (list string) :=
  match l with
  | Plain _ => None
  | Include _ name args _ => Some [tmplDirectiveWith name args; name]
  end.

(** The texts around the directive hold no brace, the name is one that
    the group of the pattern accepts, and the argument stays on the
    line. *)
Definition simpleLine (l : Line) : bool :=
  match l with
  | Plain text => allBytes (noneOf ["{"%char]) text
  | Include before name args after =>
      allBytes (noneOf ["{"%char]) before
      && allBytes (noneOf ["("; ")"; " "]%char) name
      && allBytes (noneOf [newline]) args
      && allBytes (noneOf ["{"; "}"]%char) after
  end.

(** [reTmpl] up to the run of bytes before the closing braces, and the
    end of the pattern: [reTmpl] is [reTmplWith reEnd]. *)
Definition reTmplWith (e : Regexp) : Regexp :=
  OpConcat (literal "{{")
  (OpConcat (OpQuest (OpChar (OpLiteral "-")))
  (OpConcat (OpQuest (OpChar (OpLiteral " ")))
  (OpConcat (literal "template ")
  (OpConcat (OpChar (OpLiteral dquote))
  (OpConcat (OpCapture 1 (OpStar (OpNotCharClass ["("; ")"; " "]%char)))
  (OpConcat (OpChar (OpLiteral dquote))
  (OpConcat (OpQuest (OpChar (OpLiteral " ")))
  (OpConcat (OpStar OpAnyCharNotNL) e)))))))).

Definition reEnd : Regexp :=
  OpConcat (OpQuest (OpChar (OpLiteral " ")))
  (OpConcat (OpQuest (OpChar (OpLiteral "-"))) (literal "}}")).

(** A page that includes one fragment, and an index page without
    directives. *)
Definition aboutSite : gmap string string :=
  {[ "src/index.gohtml" := "<h1>{{.Site.Title}}</h1>";
     "src/about.gohtml" := "<h1>" +:+ tmplDirective "header.gohtml" +:+ "</h1>";
     "tmpl/header.gohtml" := "<b>header</b>" ]}.
Definition aboutTmpl : list string := ["tmpl/header.gohtml"].

(** Two fragments that include each other, and a page that includes
    the first. *)
Definition cycleSite : gmap string string :=
  {[ "src/index.gohtml" := tmplDirective "a.gohtml";
     "tmpl/a.gohtml" := tmplDirective "b.gohtml";
     "tmpl/b.gohtml" := tmplDirective "a.gohtml" ]}.
Definition cycleTmpl : list string := ["tmpl/a.gohtml"; "tmpl/b.gohtml"].

(** A page with two fragments that both include a third one. *)
Definition diamondSite : gmap string string :=
  {[ "src/index.gohtml" :=
       lines [tmplDirective "left.gohtml"; tmplDirective "right.gohtml"];
     "tmpl/left.gohtml" := tmplDirective "base.gohtml";
     "tmpl/right.gohtml" := tmplDirective "base.gohtml";
     "tmpl/base.gohtml" := "<p>base</p>" ]}.
Definition diamondTmpl : list string :=
  ["tmpl/base.gohtml"; "tmpl/left.gohtml"; "tmpl/right.gohtml"].

(** A page that includes a fragment and a fragment of that fragment. *)
Definition sharedSite : gmap string string :=
  {[ "src/index.gohtml" :=
       lines [tmplDirective "nav.gohtml"; tmplDirective "logo.gohtml"];
     "tmpl/nav.gohtml" := tmplDirective "logo.gohtml";
     "tmpl/logo.gohtml" := "<img>" ]}.
Definition sharedTmpl : list string := ["tmpl/logo.gohtml"; "tmpl/nav.gohtml"].

(** Two fragments with the same base name in different directories. *)
Definition twinSite : gmap string string :=
  {[ "src/index.gohtml" := tmplDirective "header.gohtml";
     "tmpl/header.gohtml" := "<b>header</b>";
     "tmpl/old/header.gohtml" := "<i>header</i>";
     "tmpl/footer.gohtml" := "<b>footer</b>" ]}.
Definition twinTmpl : list string :=
  ["tmpl/footer.gohtml"; "tmpl/header.gohtml"; "tmpl/old/header.gohtml"].

(** A fragment that was listed at startup and has been removed since. *)
Definition staleSite : gmap string string :=
  {[ "src/index.gohtml" := tmplDirective "gone.gohtml" ]}.
Definition staleTmpl : list string := ["tmpl/gone.gohtml"].

Definition demoConfig (isEmbed : bool) : ConfigT :=
  {| IsEmbed := isEmbed;
     SiteContext := {| Site := {[ "Title" := VString "Demo" ]} |} |}.

(** A stand-in for the template engine: a template is the list of the
    texts parsed into it, a text that opens with a stray end action does
    not parse, and execution writes the texts out. *)
#[local] Instance textEngine : TemplateEngine := {|
  Template := list (string * string);
  template_New := fun _ => [];
  template_Funcs := fun t _ => t;
  template_Parse := fun t name text =>
    if String.prefix "{{end}}" text then Err "template: unexpected {{end}}"
    else Ok (t ++ [(name, text)]);
  template_Execute := fun t w _ => (Write (String.concat "" (t.*2)) w, None)
|}.

(** The response to a request that fails before anything is rendered. *)
Definition badRequest (errText : string) : ResponseWriter :=
  mkResponseWriter {[ "Content-Type" := "text/html; charset=utf-8" ]}
    (Some StatusBadRequest) errText.

(** Two opening braces occur somewhere in [s]. *)
Fixpoint hasOpenBraces (s : string) : bool :=
  match s with
  | EmptyString => false
  | String c s' =>
      match s' with
      | String c' _ => (Ascii.eqb c "{" && Ascii.eqb c' "{") || hasOpenBraces s'
      | EmptyString => false
      end
  end.

(** The alternating argument list of string keys and values. *)
Definition keyValues (kvs : list (string * any)) : list any :=
  flat_map (fun kv => [VString kv.1; kv.2]) kvs.

(** The mapping built from consecutive pairs; a later pair replaces an
    earlier one with the same key. *)
Definition pairsMap (dict : gmap string any) (kvs : list (string * any))
    : gmap string any :=
  foldl (fun m kv => <[kv.1 := kv.2]> m) dict kvs.

(** The arguments at the key positions of an argument list. *)
Fixpoint keysOf (values : list any) : list any :=
  match values with
  | key :: _ :: values' => key :: keysOf values'
  | _ => []
  end.

(** The values that a template of this server hands to [dict].  The
    helper is called by the template engine only (it is registered in
    the function map of the handler and used nowhere else), on the
    values of the argument expressions of a template.  The data of
    every template is the site context, whose map holds the title, a
    string, and nothing else: the expressions of a template yield
    values of built-in types and maps of them, and no value of a
    defined type. *)
Definition templateValue (v : any) : bool :=
  match v with
  | VDefined _ _ => false
  | _ => true
  end.

(** An element of a path that names a file or a directory. *)
Definition realElement (e : string) : Prop := e ≠ "" ∧ e ≠ "." ∧ e ≠ "..".

(** ** File trees and the two collectors

    The embedded archive and the working directory as trees.  The
    entries of a directory are kept in the order of their names, which
    is the order in which [ReadDir] and [filepath.Walk] deliver them. *)
Inductive node : Type :=
| File (content : string)
| Dir (entries : list (string * node)).

Definition IsDir (n : node) : bool :=
  match n with
  | Dir _ => true
  | File _ => false
  end.

(** The node reached from a directory along the elements of a path. *)
Fixpoint lookupNode (entries : list (string * node)) (elems : list string)
    : option node :=
  match elems with
  | [] => Some (Dir entries)
  | name :: rest =>
      match List.find (fun entry => entry.1 =? name) entries with
      | Some (_, Dir sub) => lookupNode sub rest
      | Some (_, File content) =>
          match rest with
          | [] => Some (File content)
          | _ => None
          end
      | None => None
      end
  end.

Definition isName (e : string) : bool :=
  negb ((e =? "") || (e =? ".") || (e =? "..")).

(** [fs.ValidPath]: unrooted, slash-separated names, or the single dot
    of the root. *)
Definition ValidPath (name : string) : bool :=
  (name =? ".") || forallb isName (splitSlash name).

(** What the archive holds under a name. *)
Definition embedOpen (fs : list (string * node)) (name : string) : option node :=
  if ValidPath name then
    if name =? "." then Some (Dir fs) else lookupNode fs (splitSlash name)
  else None.

(** [fs.ReadDir] of the archive. *)
Definition embed_ReadDir (fs : list (string * node)) (name : string)
    : result (list (string * node)) :=
  match embedOpen fs name with
  | Some (Dir entries) => Ok entries
  | Some (File _) => Err ("read " +:+ name +:+ ": not a directory")
  | None => Err ("open " +:+ name +:+ ": file does not exist")
  end.

(** The [range dirEntryList] loop of [CollectFilesFromFS]; [rec] is the
    recursive call, whose error is dropped. *)
Fixpoint rangeDirEntries (rec : string -> option (result (list string)))
    (dirName : string) (isRecursive : bool) (filepathList : list string)
    (dirEntryList : list (string * node)) : option (list string) :=
  match dirEntryList with
  | [] => Some filepathList
  | dirEntry :: rest =>
      if IsDir dirEntry.2 then
        if isRecursive then
          match rec (path.Join [dirName; dirEntry.1]) with
          | None => None
          | Some r =>
              let fpList := match r with Ok l => l | Err _ => [] end in
              rangeDirEntries rec dirName isRecursive (filepathList ++ fpList) rest
          end
        else rangeDirEntries rec dirName isRecursive filepathList rest
      else
        rangeDirEntries rec dirName isRecursive
          (filepathList ++ [path.Join [dirName; dirEntry.1]]) rest
  end.

(** [CollectFilesFromFS]; [fuel] bounds the depth of the recursion. *)
Fixpoint CollectFilesFromFS (fuel : nat) (fs : list (string * node))
    (dirName : string) (isRecursive : bool) : option (result (list string)) :=
  match fuel with
  | O => None
  | S fuel' =>
      match embed_ReadDir fs dirName with
      | Err err => Some (Err err)
      | Ok dirEntryList =>
          Ok <$> rangeDirEntries
                   (fun d => CollectFilesFromFS fuel' fs d isRecursive)
                   dirName isRecursive [] dirEntryList
      end
  end.

(** The files below a directory in the order of a walk that visits the
    entries of every directory in turn and descends at once; only the
    files of the directory itself when the walk is not recursive. *)
Fixpoint listing (isRecursive : bool) (dir : string) (n : node) : list string :=
  match n with
  | File _ => [dir]
  | Dir entries =>
      flat_map (fun entry =>
                  match entry.2 with
                  | File _ => [dir +:+ "/" +:+ entry.1]
                  | Dir _ =>
                      if isRecursive
                      then listing isRecursive (dir +:+ "/" +:+ entry.1) entry.2
                      else []
                  end) entries
  end.

(** The number of directories on the longest way down. *)
Fixpoint height (n : node) : nat :=
  match n with
  | File _ => 0
  | Dir entries => S (list_max (map (fun entry => height entry.2) entries))
  end.

(** A tree as the archive and the file system hold it: the entries of a
    directory have names, without slashes, that differ from each
    other. *)
Fixpoint wellFormed (n : node) : Prop :=
  match n with
  | File _ => True
  | Dir entries =>
      NoDup entries.*1
      ∧ fold_right (fun entry rest =>
                      (realElement entry.1 ∧ splitSlash entry.1 = [entry.1]
                       ∧ wellFormed entry.2) ∧ rest) True entries
  end.

(** [os.Lstat] below the working directory: the node under the cleaned
    path, as for [os_ReadFile]. *)
Definition os_Lstat (disk : list (string * node)) (name : string) : option node :=
  if path.Clean name =? "." then Some (Dir disk)
  else lookupNode disk (splitSlash (path.Clean name)).

(** The function that [CollectFiles] hands to [filepath.Walk], as a
    change of [filepathList].  It calls [info.IsDir()] first, also when
    the walk reports a path without file information. *)
Definition collectFn (filepathList : list string) (path : string)
    (info : option node) : outcome (list string) :=
  match info with
  | None => Panics "runtime error: invalid memory address or nil pointer dereference"
  | Some n =>
      if IsDir n then Returns filepathList
      else Returns (filepathList ++ [path])
  end.

(** [filepath.Walk] for a function that returns no error: the loop over
    the names of a directory, and the walk below one path. *)
Fixpoint walkNames (rec : string -> node -> list string -> option (outcome (list string)))
    (disk : list (string * node)) (path : string) (filepathList : list string)
    (names : list string) : option (outcome (list string)) :=
  match names with
  | [] => Some (Returns filepathList)
  | name :: rest =>
      let filename := path.Join [path; name] in
      match os_Lstat disk filename with
      | None =>
          match collectFn filepathList filename None with
          | Panics msg => Some (Panics msg)
          | Returns filepathList' => walkNames rec disk path filepathList' rest
          end
      | Some fileInfo =>
          match rec filename fileInfo filepathList with
          | None => None
          | Some (Panics msg) => Some (Panics msg)
          | Some (Returns filepathList') => walkNames rec disk path filepathList' rest
          end
      end
  end.

Fixpoint walk (fuel : nat) (disk : list (string * node)) (path : string)
    (info : node) (filepathList : list string) : option (outcome (list string)) :=
  match fuel with
  | O => None
  | S fuel' =>
      match info with
      | File _ => Some (collectFn filepathList path (Some info))
      | Dir entries =>
          match collectFn filepathList path (Some info) with
          | Panics msg => Some (Panics msg)
          | Returns filepathList' =>
              walkNames (walk fuel' disk) disk path filepathList' entries.*1
          end
      end
  end.

Definition Walk (fuel : nat) (disk : list (string * node)) (root : string)
    : option (outcome (list string)) :=
  match os_Lstat disk root with
  | None => Some (collectFn [] root None)
  | Some info => walk fuel disk root info []
  end.

(** [CollectFiles]: the error it returns is the one of the walk, which
    is always nil. *)
Definition CollectFiles (fuel : nat) (disk : list (string * node)) (dir : string)
    : option (outcome (result (list string))) :=
  match Walk fuel disk dir with
  | None => None
  | Some (Panics msg) => Some (Panics msg)
  | Some (Returns filepathList) => Some (Returns (Ok filepathList))
  end.

(** The candidate list that [initURL] computes before it registers the
    handler; an error of the collector is raised as a panic. *)
Definition initURL_tmplFileList (fuel : nat) (archive disk : list (string * node))
    (isEmbed : bool) : option (outcome (list string)) :=
  if isEmbed then
    match CollectFilesFromFS fuel archive "tmpl" true with
    | None => None
    | Some (Ok tmplFileList) => Some (Returns tmplFileList)
    | Some (Err err) => Some (Panics err)
    end
  else
    match CollectFiles fuel disk "./tmpl" with
    | None => None
    | Some (Panics msg) => Some (Panics msg)
    | Some (Returns (Ok tmplFileList)) => Some (Returns tmplFileList)
    | Some (Returns (Err err)) => Some (Panics err)
    end.

(** A sample tree: two pages, and fragments on two levels. *)
Definition sampleTree : list (string * node) :=
  [ ("src", Dir [ ("about.gohtml", File ("<h1>" +:+ "about" +:+ "</h1>"));
                  ("index.gohtml", File "<h1>{{.Site.Title}}</h1>") ]);
    ("tmpl", Dir [ ("base", Dir [ ("head.gohtml", File "<head/>");
                                  ("nav.gohtml", File "<nav/>") ]);
                   ("footer.gohtml", File "<footer/>");
                   ("header.gohtml", File "<header/>") ]) ].

(** ** The earlier handler

    Before [getAllTmplName] was written the handler selected the
    templates of a page in place, without following the references of
    the selected files. *)

(** [re.SubexpNames()] of the pattern: the whole match has no name, the
    group is called Name. *)
Definition reTmpl_SubexpNames : list string := [""; "Name"].

(** The loop that files every named submatch under the name of its
    group; a name that is not yet in the map stands for the nil slice. *)
Definition tmplMap (matchList : list (list string)) : gmap string (list string) :=
  foldl (fun tmplMap match_ =>
           foldl (fun (tmplMap : gmap string (list string)) (group : nat * string) =>
                    let (idxGroup, name) := group in
                    if negb (idxGroup =? 0)%nat && negb (name =? "")
                    then <[name := (tmplMap !!! name) ++ [nth idxGroup match_ ""]]> tmplMap
                    else tmplMap)
                 tmplMap (imap pair reTmpl_SubexpNames))
        ∅ matchList.

(** The loop that enters each name of the slice once. *)
Definition setTmpl (names : list string) : gmap string string :=
  foldl (fun (set : gmap string string) tmpl =>
           match set !! tmpl with
           | Some _ => set
           | None => <[tmpl := tmpl]> set
           end) ∅ names.

(** The templates handed to the parser: the candidates whose base name
    is in the set, in the order of the list, then the page. *)
Definition directBundle (content : string) (tmplFileList : list string)
    (curSrc : string) : list string :=
  let set := setTmpl (tmplMap (FindAllStringSubmatch reTmpl content) !!! "Name") in
  foldl (fun filterTmpl tmplFilepath =>
           match set !! filepath.Base tmplFilepath with
           | Some _ => filterTmpl ++ [tmplFilepath]
           | None => filterTmpl
           end) [] tmplFileList
  ++ [curSrc].


(** The stack of [path.Clean]: names on top of double dots, and no
    double dots in a rooted path. *)
Definition cleanStack (rooted : bool) (out : list string) : Prop :=
  ∃ names n, out = names ++ replicate n ".."
             ∧ Forall realElement names ∧ (rooted = true → n = 0%nat).

(** ** The reference graph and the loop of the resolver *)

Section Resolution.
Variables (UrlFS diskFS : gmap string string).
Variables (allTmpl : list string) (isEmbed : bool).

Definition readFile (name : string) : result string :=
  if isEmbed then UrlFS_ReadFile UrlFS name else os_ReadFile diskFS name.

(** The names a file refers to; none when it cannot be read. *)
Definition references (filePath : string) : gmap string string :=
  match readFile filePath with
  | Ok content => curTmplSet (FindAllStringSubmatch reTmpl content)
  | Err _ => ∅
  end.

(** [includes p t]: the candidate [t] is selected while [p] is
    resolved, because the base name of [t] is referred to in [p]. *)
Definition includes (p t : string) : Prop :=
  t ∈ allTmpl ∧ is_Some (references p !! filepath.Base t).

Definition resolve (fuel : nat) (p : string) : option (result (list string)) :=
  getAllTmplName UrlFS diskFS fuel p allTmpl isEmbed.

(** What the recursive call on [t] contributes. *)
Definition nested (rec : string -> option (result (list string))) (t : string)
    : list string :=
  match rec t with
  | Some (Ok l) => l
  | _ => []
  end.

(** What one iteration of the loop appends. *)
Definition appended (rec : string -> option (result (list string)))
    (set : gmap string string) (t : string) : list string :=
  match set !! filepath.Base t with
  | Some _ => t :: nested rec t
  | None => []
  end.

(** The call on [p] is still unfinished at every depth. *)
Definition neverReturns (p : string) : Prop :=
  ∀ fuel, resolve fuel p = None.

(** [refPath p l]: [l] lists the files met along references from [p]. *)
Fixpoint refPath (p : string) (l : list string) : Prop :=
  match l with
  | [] => True
  | t :: l' => includes p t ∧ refPath t l'
  end.

(** No file met from [p] lies on a cycle of references. *)
Definition acyclicFrom (p : string) : Prop :=
  ∀ t, rtc includes p t → ¬ tc includes t t.

Lemma resolve_S fuel p :
  resolve (S fuel) p =
    match readFile p with
    | Err err => Some (Err err)
    | Ok content =>
        let matchList := FindAllStringSubmatch reTmpl content in
        if (length matchList =? 0)%nat then Some (Ok [])
        else Ok <$> rangeAllTmpl (resolve fuel) (curTmplSet matchList) [] allTmpl
    end.
Proof. reflexivity. Qed.

Lemma rangeAllTmpl_Some rec set l : ∀ acc res,
  rangeAllTmpl rec set acc l = Some res →
  res = acc ++ flat_map (appended rec set) l.
Proof.
  induction l as [|t l IH]; intros acc res; simpl.
  - intros [= <-]. by rewrite app_nil_r.
  - unfold appended at 1, nested. destruct (set !! filepath.Base t) as [v|].
    + destruct (rec t) as [r|]; [|done]. intros H. apply IH in H as ->.
      destruct r as [fList|err]; simpl.
      * destruct fList; simpl; by rewrite <- ?app_assoc.
      * by rewrite <- app_assoc.
    + apply IH.
Qed.

Lemma rangeAllTmpl_None rec set l : ∀ acc,
  rangeAllTmpl rec set acc l = None →
  ∃ t, t ∈ l ∧ is_Some (set !! filepath.Base t) ∧ rec t = None.
Proof.
  induction l as [|t l IH]; intros acc; simpl; [done|].
  destruct (set !! filepath.Base t) as [v|] eqn:Hsel.
  - destruct (rec t) as [r|] eqn:Hrec.
    + intros (t' & ? & ?)%IH. exists t'. split; [by right|done].
    + intros _. exists t. rewrite Hsel. split; [by left|eauto].
  - intros (t' & ? & ?)%IH. exists t'. split; [by right|done].
Qed.

Lemma rangeAllTmpl_stuck rec set l t : ∀ acc,
  t ∈ l → is_Some (set !! filepath.Base t) → rec t = None →
  rangeAllTmpl rec set acc l = None.
Proof.
  induction l as [|t' l IH]; intros acc Hin Hsel Hrec; [by inversion Hin|].
  simpl. apply elem_of_cons in Hin as [->|Hin].
  - destruct Hsel as [v ->]. by rewrite Hrec.
  - destruct (set !! filepath.Base t'); [destruct (rec t')|]; eauto.
Qed.

Lemma curTmplSet_nil : curTmplSet [] = ∅.
Proof. reflexivity. Qed.

(** A file that is selected from has been read and has matches. *)
Lemma includes_inv p t :
  includes p t →
  ∃ content, readFile p = Ok content ∧
    (length (FindAllStringSubmatch reTmpl content) =? 0)%nat = false ∧
    is_Some (curTmplSet (FindAllStringSubmatch reTmpl content) !! filepath.Base t).
Proof.
  intros [_ Hsel]. unfold references in Hsel.
  destruct (readFile p) as [content|err]; [|by rewrite lookup_empty in Hsel; destruct Hsel].
  exists content. split; [done|]. split; [|done].
  destruct (FindAllStringSubmatch reTmpl content); [|done].
  rewrite curTmplSet_nil, lookup_empty in Hsel. by destruct Hsel.
Qed.

(** The recursion is as deep as the chains of the reference graph. *)
Lemma resolve_stuck fuel p t :
  includes p t → resolve fuel t = None → resolve (S fuel) p = None.
Proof.
  intros Hinc Hrec. destruct (includes_inv _ _ Hinc) as (content & Hread & Hlen & Hsel).
  rewrite resolve_S, Hread. simpl. rewrite Hlen.
  rewrite (rangeAllTmpl_stuck _ _ _ t); [done|by destruct Hinc|done..].
Qed.

Lemma resolve_None_inv fuel p :
  resolve (S fuel) p = None → ∃ t, includes p t ∧ resolve fuel t = None.
Proof.
  rewrite resolve_S. unfold includes, references.
  destruct (readFile p) as [content|err]; [|done]. simpl.
  destruct (_ =? _)%nat; [done|].
  destruct (rangeAllTmpl _ _ _ _) eqn:Hloop; [done|]. intros _.
  apply rangeAllTmpl_None in Hloop as (t & ? & ? & ?). eauto.
Qed.

(** *** The result does not depend on the depth allowed *)

Lemma rangeAllTmpl_mono (rec1 rec2 : string -> option (result (list string))) set l :
  (∀ t r, rec1 t = Some r → rec2 t = Some r) →
  ∀ acc res, rangeAllTmpl rec1 set acc l = Some res →
             rangeAllTmpl rec2 set acc l = Some res.
Proof.
  intros Hrec. induction l as [|t l IH]; intros acc res; simpl; [done|].
  destruct (set !! filepath.Base t); [|by apply IH].
  destruct (rec1 t) as [r|] eqn:H1; [|done].
  rewrite (Hrec _ _ H1). apply IH.
Qed.

Lemma resolve_mono_S fuel : ∀ p r,
  resolve fuel p = Some r → resolve (S fuel) p = Some r.
Proof.
  induction fuel as [|fuel IH]; intros p r; [done|].
  rewrite (resolve_S (S fuel)), (resolve_S fuel).
  destruct (readFile p) as [content|err]; [|done]. simpl.
  destruct (_ =? _)%nat; [done|].
  destruct (rangeAllTmpl (resolve fuel) _ _ _) as [res|] eqn:Hloop; [|done].
  by rewrite (rangeAllTmpl_mono _ _ _ _ IH _ _ Hloop).
Qed.

Lemma resolve_mono fuel fuel' p r :
  (fuel ≤ fuel')%nat → resolve fuel p = Some r → resolve fuel' p = Some r.
Proof. induction 1; [done|]. intros. by apply resolve_mono_S, IHle. Qed.

Lemma resolve_agree fuel1 fuel2 p r1 r2 :
  resolve fuel1 p = Some r1 → resolve fuel2 p = Some r2 → r1 = r2.
Proof.
  intros H1 H2. destruct (Nat.le_ge_cases fuel1 fuel2) as [Hle|Hle].
  - apply (resolve_mono _ _ _ _ Hle) in H1. congruence.
  - apply (resolve_mono _ _ _ _ Hle) in H2. congruence.
Qed.

(** *** Cycles *)


Lemma on_cycle_step x :
  tc includes x x → ∃ y, includes x y ∧ tc includes y y.
Proof.
  intros Hc. inversion Hc as [? ? Hxx|? y ? Hxy Hyx]; subst.
  - eauto.
  - exists y. split; [done|]. by eapply tc_r.
Qed.

Lemma cycle_neverReturns x : tc includes x x → neverReturns x.
Proof.
  intros Hc fuel. revert x Hc.
  induction fuel as [|fuel IH]; intros x Hc; [done|].
  destruct (on_cycle_step _ Hc) as (y & Hxy & Hy).
  eapply resolve_stuck; eauto.
Qed.

Lemma reach_neverReturns p x :
  rtc includes p x → neverReturns x → neverReturns p.
Proof.
  induction 1 as [|p y x Hpy _ IH]; [done|].
  intros Hx [|fuel]; [done|]. eapply resolve_stuck; [done|]. by apply IH.
Qed.

(** *** What a returned list contains *)

Lemma resolve_Err_inv fuel p err :
  resolve fuel p = Some (Err err) → readFile p = Err err.
Proof.
  destruct fuel as [|fuel]; [done|]. rewrite resolve_S.
  destruct (readFile p) as [content|err']; [|congruence]. simpl.
  destruct (_ =? _)%nat; [done|]. by destruct (rangeAllTmpl _ _ _ _).
Qed.

Lemma includes_readable p t : includes p t → ∃ content, readFile p = Ok content.
Proof. intros (content & ? & _)%includes_inv. eauto. Qed.

Lemma tc_includes_inv p t :
  tc includes p t → ∃ c, includes p c ∧ (t = c ∨ tc includes c t).
Proof. inversion 1; subst; eauto. Qed.

Lemma resolve_elem_of fuel : ∀ p deps,
  resolve fuel p = Some (Ok deps) → ∀ t, t ∈ deps ↔ tc includes p t.
Proof.
  induction fuel as [|fuel IH]; intros p deps; [done|].
  rewrite resolve_S. destruct (readFile p) as [content|err] eqn:Hread; [|done].
  simpl. destruct (_ =? _)%nat eqn:Hlen.
  { intros [= <-] t. split; [by intros ?%elem_of_nil|].
    intros (c & (c' & Hread' & Hlen' & _)%includes_inv & _)%tc_includes_inv.
    congruence. }
  destruct (rangeAllTmpl _ _ _ _) as [res|] eqn:Hloop; [|done].
  intros [= <-] t. pose proof (rangeAllTmpl_Some _ _ _ _ _ Hloop) as ->. simpl.
  rewrite list_elem_of_In, in_flat_map. setoid_rewrite <- list_elem_of_In.
  assert (Hinc : ∀ c, includes p c ↔
            c ∈ allTmpl ∧ is_Some (curTmplSet (FindAllStringSubmatch reTmpl content)
                                     !! filepath.Base c)).
  { intros c. unfold includes, references. by rewrite Hread. }
  split.
  - intros (c & Hc & Ht). unfold appended in Ht.
    destruct (_ !! filepath.Base c) as [v|] eqn:Hsel; [|by apply elem_of_nil in Ht].
    assert (includes p c) by (apply Hinc; rewrite Hsel; eauto).
    apply elem_of_cons in Ht as [->|Ht]; [by apply tc_once|].
    unfold nested in Ht. destruct (resolve fuel c) as [[l|]|] eqn:Hc';
      try by apply elem_of_nil in Ht.
    eapply tc_l; [done|]. by eapply IH.
  - intros (c & Hpc & Ht)%tc_includes_inv. exists c.
    pose proof Hpc as [Hc [v Hsel]]%Hinc. split; [done|].
    unfold appended. rewrite Hsel. destruct Ht as [->|Ht]; [by left|right].
    unfold nested. destruct (resolve fuel c) as [[l|err]|] eqn:Hc'.
    + by eapply IH.
    + apply resolve_Err_inv in Hc'.
      apply tc_includes_inv in Ht as (c' & (? & ?)%includes_readable & _). congruence.
    + rewrite (rangeAllTmpl_stuck _ _ _ c) in Hloop; [done..|by rewrite Hsel|done].
Qed.

(** *** Termination on an acyclic closure *)


Lemma resolve_None_path fuel : ∀ p,
  resolve fuel p = None → ∃ l, length l = fuel ∧ refPath p l.
Proof.
  induction fuel as [|fuel IH]; intros p Hp; [by exists []|].
  apply resolve_None_inv in Hp as (t & Hpt & (l & Hlen & Hl)%IH).
  exists (t :: l). simpl. by rewrite Hlen.
Qed.

Lemma path_candidates l : ∀ p t, refPath p l → t ∈ l → t ∈ allTmpl.
Proof.
  induction l as [|c l IH]; intros p t; simpl; [by intros _ ?%elem_of_nil|].
  intros [[Hc _] Hl] [->|Ht]%elem_of_cons; eauto.
Qed.

Lemma path_split l1 x l2 : ∀ p,
  refPath p (l1 ++ x :: l2) → tc includes p x ∧ refPath x l2.
Proof.
  induction l1 as [|c l1 IH]; intros p; simpl.
  - intros [? ?]. split; [by apply tc_once|done].
  - intros [Hpc [? ?]%IH]. split; [by eapply tc_l|done].
Qed.

Lemma repeated_elem (l : list string) :
  ¬ NoDup l → ∃ x l1 l2 l3, l = l1 ++ x :: l2 ++ x :: l3.
Proof.
  induction l as [|a l IH]; intros Hdup; [by destruct Hdup; constructor|].
  destruct (decide (a ∈ l)) as [Hin|Hnin].
  - apply list_elem_of_split in Hin as (l2 & l3 & ->). by exists a, [], l2, l3.
  - destruct IH as (x & l1 & l2 & l3 & ->).
    { intros Hl. apply Hdup. by constructor. }
    by exists x, (a :: l1), l2, l3.
Qed.

Lemma long_path_cycle p l :
  refPath p l → (length allTmpl < length l)%nat →
  ∃ x, tc includes p x ∧ tc includes x x.
Proof.
  intros Hl Hlen.
  destruct (repeated_elem l) as (x & l1 & l2 & l3 & ->).
  { intros Hnd. apply (NoDup_submseteq _ allTmpl) in Hnd.
    - apply submseteq_length in Hnd. lia.
    - intros t. by apply path_candidates with p. }
  apply path_split in Hl as [Hpx [Hxx _]%path_split]. eauto.
Qed.


Lemma acyclic_returns p :
  acyclicFrom p → ∃ r, resolve (S (length allTmpl)) p = Some r.
Proof.
  intros Hacyc. destruct (resolve _ p) as [r|] eqn:Hres; [by eauto|].
  apply resolve_None_path in Hres as (l & Hlen & Hl).
  destruct (long_path_cycle p l) as (x & Hpx & Hxx); [done|lia|].
  destruct (Hacyc x); [by apply tc_rtc|done].
Qed.
Lemma returns_acyclic fuel p r : resolve fuel p = Some r → acyclicFrom p.
Proof.
  intros Hres t Hpt Ht.
  pose proof (reach_neverReturns _ _ Hpt (cycle_neverReturns _ Ht) fuel). congruence.
Qed.

Lemma tc_includes_candidate p t : tc includes p t → t ∈ allTmpl.
Proof. induction 1 as [? ? [? _]|]; done. Qed.

Lemma resolve_candidates fuel p deps t :
  resolve fuel p = Some (Ok deps) → t ∈ deps → t ∈ allTmpl.
Proof.
  intros Hres Ht. eapply tc_includes_candidate. by eapply resolve_elem_of.
Qed.

Lemma flat_map_appended_empty rec (l : list string) :
  flat_map (appended rec ∅) l = [].
Proof. induction l as [|t l IH]; simpl; [done|]. by rewrite IH. Qed.

(** The list a call returns, iteration by iteration of its loop. *)
Lemma resolve_S_Ok fuel p content res :
  readFile p = Ok content → resolve (S fuel) p = Some (Ok res) →
  res = flat_map (appended (resolve fuel)
                    (curTmplSet (FindAllStringSubmatch reTmpl content))) allTmpl.
Proof.
  intros Hread. rewrite resolve_S, Hread. simpl.
  destruct (FindAllStringSubmatch reTmpl content) as [|m ml] eqn:Hml.
  - intros [= <-]. by rewrite curTmplSet_nil, flat_map_appended_empty.
  - simpl. destruct (rangeAllTmpl _ _ _ _) as [l|] eqn:Hloop; [|done].
    intros [= <-]. by apply rangeAllTmpl_Some in Hloop.
Qed.
End Resolution.

(** ** Facts about strings and paths *)

Lemma append_nil_r (s : string) : s +:+ "" = s.
Proof. induction s as [|c s IH]; simpl; [done|]. by rewrite IH. Qed.

Lemma append_assoc (a b c : string) : (a +:+ b) +:+ c = a +:+ (b +:+ c).
Proof. induction a as [|x a IH]; simpl; [done|]. by rewrite IH. Qed.

Lemma length_append (a b : string) :
  String.length (a +:+ b) = (String.length a + String.length b)%nat.
Proof. induction a as [|x a IH]; simpl; [done|]. by rewrite IH. Qed.

Lemma substring_append_l (a b : string) :
  substring 0 (String.length a) (a +:+ b) = a.
Proof.
  induction a as [|c a IH]; simpl; [by destruct b|]. by rewrite IH.
Qed.

Lemma dropSuffix_append (a b : string) :
  substring 0 (String.length (a +:+ b) - String.length b) (a +:+ b) = a.
Proof.
  rewrite length_append. replace (_ + _ - _)%nat with (String.length a) by lia.
  apply substring_append_l.
Qed.

Lemma eqb_string_false (a b : string) : a ≠ b → (a =? b) = false.
Proof. by intros ?%String.eqb_neq. Qed.

Lemma splitSlash_nonempty (s : string) : splitSlash s ≠ [].
Proof.
  destruct s as [|c s]; simpl; [done|].
  destruct (Ascii.eqb c "/"); [done|]. by destruct (splitSlash s).
Qed.

Lemma splitSlash_append (a b : string) :
  splitSlash (a +:+ String "/" b) = splitSlash a ++ splitSlash b.
Proof.
  induction a as [|c a IH]; simpl; [done|].
  rewrite IH. destruct (Ascii.eqb c "/"); [done|].
  pose proof (splitSlash_nonempty a). by destruct (splitSlash a).
Qed.

Lemma joinSlash_snoc (l : list string) (e : string) :
  ∃ dir, joinSlash (l ++ [e]) = dir +:+ e.
Proof.
  induction l as [|a l [dir IH]]; [by exists ""|].
  simpl. destruct (l ++ [e]) eqn:Hl; [by destruct l|].
  rewrite IH. exists (a +:+ "/" +:+ dir). by rewrite !append_assoc.
Qed.


Lemma cleanStep_real rooted out e :
  realElement e → path.cleanStep rooted out e = e :: out.
Proof.
  intros (? & ? & ?). unfold path.cleanStep.
  by rewrite !eqb_string_false.
Qed.

Lemma append_eq_nil (a b : string) : a +:+ b = "" → b = "".
Proof. by destruct a. Qed.

(** [path.Clean] keeps a last element that is a name. *)
Lemma Clean_last_element (s : string) (l : list string) (e : string) :
  splitSlash s = l ++ [e] → realElement e →
  ∃ dir, path.Clean s = dir +:+ e.
Proof.
  intros Hs He. unfold path.Clean.
  destruct (s =? "") eqn:Hnil.
  { apply String.eqb_eq in Hnil as ->. destruct l as [|? [|? ?]]; simplify_eq/=.
    by destruct He. }
  rewrite Hs, foldl_app. simpl. rewrite cleanStep_real by done. simpl.
  destruct (joinSlash_snoc (rev (foldl (path.cleanStep (String.prefix "/" s)) [] l)) e)
    as [dir ->].
  destruct (String.prefix "/" s).
  - exists (String "/" dir). reflexivity.
  - destruct (dir +:+ e =? "") eqn:Hb; [|by exists dir].
    apply String.eqb_eq, append_eq_nil in Hb. by destruct He.
Qed.

Lemma Join_two (a b : string) :
  a ≠ "" → path.Join [a; b] = path.Clean (a +:+ String "/" b).
Proof.
  intros Ha. unfold path.Join. destruct a as [|c a]; [done|]. simpl.
  by rewrite append_assoc.
Qed.

Lemma Join_index (x : string) :
  ∃ dir, path.Join [x; "index.html"] = dir +:+ "index.html".
Proof.
  destruct (decide (x = "")) as [->|Hx]; [by exists ""|].
  rewrite Join_two by done.
  apply (Clean_last_element _ (splitSlash x)); [|done].
  apply (splitSlash_append x "index.html").
Qed.

Lemma fromLastDot_suffix (e : string) : ∃ stem, e = stem +:+ fromLastDot e.
Proof.
  induction e as [|c e [stem IH]]; [by exists ""|]. simpl.
  destruct (fromLastDot e) as [|c' t] eqn:Hd.
  - destruct (Ascii.eqb c "."); [by exists ""|].
    exists (String c e). by rewrite append_nil_r.
  - exists (String c stem). simpl. by rewrite <- IH.
Qed.

Lemma last_snoc_inv (l : list string) :
  l ≠ [] → ∃ l', l = l' ++ [List.last l ""].
Proof.
  intros Hl. exists (removelast l). by apply app_removelast_last.
Qed.

Lemma Ext_real (p : string) :
  String.length (filepath.Ext p) ≠ 0%nat → String.length (filepath.Ext p) ≠ 1%nat →
  realElement (List.last (splitSlash p) "").
Proof.
  unfold filepath.Ext. intros H0 H1.
  repeat split; intros He; rewrite He in *; simpl in *; done.
Qed.

Lemma Join_src_ext (p : string) :
  String.length (filepath.Ext p) ≠ 0%nat → String.length (filepath.Ext p) ≠ 1%nat →
  ∃ stem, path.Join ["./src"; p] = stem +:+ filepath.Ext p.
Proof.
  intros H0 H1. pose proof (Ext_real p H0 H1) as Hreal.
  destruct (last_snoc_inv (splitSlash p) (splitSlash_nonempty p)) as [l Hl].
  destruct (fromLastDot_suffix (List.last (splitSlash p) "")) as [stem Hstem].
  rewrite Join_two by done.
  destruct (Clean_last_element ("./src" +:+ String "/" p) ("." :: "src" :: l)
              (List.last (splitSlash p) "")) as [dir Hdir]; [|done|].
  - rewrite splitSlash_append, Hl at 1. done.
  - rewrite Hdir. exists (dir +:+ stem). unfold filepath.Ext.
    rewrite append_assoc. by rewrite <- Hstem.
Qed.

(** ** The helper [Dict] *)

Lemma length_keyValues (kvs : list (string * any)) :
  length (keyValues kvs) = (2 * length kvs)%nat.
Proof. induction kvs as [|kv kvs IH]; simpl; [done|]. rewrite IH. lia. Qed.

Lemma Dict_odd (values : list any) :
  Nat.odd (length values) = true →
  Dict values = Returns (Err "parameters must be even").
Proof.
  intros Hodd. unfold Dict.
  assert (length values mod 2 = 1)%nat as ->; [|done].
  rewrite <- Nat.bit0_mod, Nat.bit0_odd, Hodd. done.
Qed.

Lemma Dict_loop_keyValues (kvs : list (string * any)) : ∀ dict,
  kvs ≠ [] → Dict_loop dict (keyValues kvs) = Returns (Ok (pairsMap dict kvs)).
Proof.
  induction kvs as [|[k v] kvs IH]; intros dict Hne; [done|]. simpl.
  destruct kvs as [|kv kvs]; [done|]. by rewrite <- IH.
Qed.

(** String keys: the pairs are stored in order. *)
Lemma Dict_keyValues (kvs : list (string * any)) :
  kvs ≠ [] → Dict (keyValues kvs) = Returns (Ok (pairsMap ∅ kvs)).
Proof.
  intros Hne. unfold Dict. rewrite length_keyValues.
  replace (2 * length kvs)%nat with (length kvs * 2)%nat by lia.
  rewrite Nat.Div0.mod_mul. simpl. by apply Dict_loop_keyValues.
Qed.

Lemma Dict_loop_bad_key (kvs : list (string * any)) key val rest : ∀ dict,
  reflect.ValueOf_Kind key ≠ reflect.String →
  Dict_loop dict (keyValues kvs ++ key :: val :: rest)
  = Returns (Err ("type must equal to " +:+ q "string")).
Proof.
  intros dict Hkind. revert dict.
  induction kvs as [|[k v] kvs IH]; intros dict.
  - simpl. by destruct (reflect.ValueOf_Kind key).
  - change (keyValues ((k, v) :: kvs) ++ key :: val :: rest)
      with (VString k :: v :: (keyValues kvs ++ key :: val :: rest)).
    cbn [Dict_loop reflect.ValueOf_Kind]. rewrite IH. by destruct kvs.
Qed.

(** A key whose kind is not [String], after string keys only: the error
    is returned. *)
Lemma Dict_bad_key (kvs : list (string * any)) key val rest :
  reflect.ValueOf_Kind key ≠ reflect.String → Nat.even (length rest) = true →
  Dict (keyValues kvs ++ key :: val :: rest)
  = Returns (Err ("type must equal to " +:+ q "string")).
Proof.
  intros Hkind Heven. unfold Dict.
  assert (length (keyValues kvs ++ key :: val :: rest) mod 2 = 0)%nat as ->.
  { apply Nat.even_spec in Heven as [n Hn].
    replace (length (keyValues kvs ++ key :: val :: rest))
      with ((length kvs + n + 1) * 2)%nat
      by (rewrite length_app, length_keyValues; cbn [length]; lia).
    apply Nat.Div0.mod_mul. }
  simpl. by apply Dict_loop_bad_key.
Qed.

Lemma Dict_loop_defined_key (kvs : list (string * any)) T v val rest : ∀ dict,
  reflect.ValueOf_Kind v = reflect.String →
  Dict_loop dict (keyValues kvs ++ VDefined T v :: val :: rest)
  = Panics ("interface conversion: interface {} is " +:+ T +:+ ", not string").
Proof.
  intros dict Hkind. revert dict.
  induction kvs as [|[k v'] kvs IH]; intros dict.
  - simpl. by rewrite Hkind.
  - change (keyValues ((k, v') :: kvs) ++ VDefined T v :: val :: rest)
      with (VString k :: v' :: (keyValues kvs ++ VDefined T v :: val :: rest)).
    cbn [Dict_loop reflect.ValueOf_Kind]. rewrite IH. by destruct kvs.
Qed.

(** A direct call can hand [Dict] a key of a defined string type, such
    as [template.HTML]: it has kind [String] and passes the [switch],
    and the assertion [key.(string)] then panics.  No template of this
    server yields such a key. *)
Lemma Dict_defined_string_key_panics :
  reflect.ValueOf_Kind (VDefined "template.HTML" (VString "k")) = reflect.String
  ∧ Nat.even (length [VDefined "template.HTML" (VString "k"); VInt 1]) = true
  ∧ Dict [VDefined "template.HTML" (VString "k"); VInt 1]
    = Panics "interface conversion: interface {} is template.HTML, not string".
Proof. by repeat split. Qed.

Lemma templateValue_kind (key : any) :
  templateValue key = true → (∀ k, key ≠ VString k) →
  reflect.ValueOf_Kind key ≠ reflect.String.
Proof. intros Hkey Hnot. destruct key; simpl; try done. by destruct (Hnot s). Qed.

(** In a list of pairs with a key that is not a string, the pairs
    before the first such key have string keys. *)
Lemma first_bad_key : ∀ (n : nat) (values : list any) (bad : any),
  length values = (2 * n)%nat → bad ∈ keysOf values → (∀ k, bad ≠ VString k) →
  ∃ kvs key val rest,
    values = keyValues kvs ++ key :: val :: rest
    ∧ (∀ k, key ≠ VString k) ∧ Nat.even (length rest) = true.
Proof.
  induction n as [|n IH]; intros values bad Hlen Hbad Hnot.
  - destruct values; [|done]. by apply elem_of_nil in Hbad.
  - destruct values as [|key [|val rest]]; [done|simpl in Hlen; lia|].
    assert (Hrest : length rest = (2 * n)%nat) by (simpl in Hlen; lia).
    assert (Hcase : (∃ k, key = VString k) ∨ (∀ k, key ≠ VString k)).
    { destruct key; try (by right). left. by eexists. }
    destruct Hcase as [[k ->]|Hkey].
    + cbn [keysOf] in Hbad. apply elem_of_cons in Hbad as [->|Hbad]; [by destruct (Hnot k)|].
      destruct (IH rest bad Hrest Hbad Hnot) as (kvs & key' & val' & rest' & -> & Hkey' & Heven).
      by exists ((k, val) :: kvs), key', val', rest'.
    + exists [], key, val, rest. split; [done|]. split; [done|].
      rewrite Hrest. apply Nat.even_spec. by exists n.
Qed.

(** C8.  On the argument lists that a template hands to it, [Dict]
    does what the claim says: a list of odd length gives an error; a
    list of even length in which a key is not a string gives an error;
    a non-empty list of alternating string keys and values gives the
    mapping built from the consecutive pairs. *)
Theorem Dict_on_template_values (values : list any) :
  Forall (λ v, templateValue v = true) values →
  (Nat.odd (length values) = true →
   Dict values = Returns (Err "parameters must be even"))
  ∧ (Nat.even (length values) = true →
     (∃ key, key ∈ keysOf values ∧ ∀ k, key ≠ VString k) →
     Dict values = Returns (Err ("type must equal to " +:+ q "string")))
  ∧ (∀ kvs, kvs ≠ [] → values = keyValues kvs →
     Dict values = Returns (Ok (pairsMap ∅ kvs))).
Proof.
  intros Hvalues. split; [|split].
  - apply Dict_odd.
  - intros Heven (bad & Hbad & Hnot).
    apply Nat.even_spec in Heven as [n Hlen].
    destruct (first_bad_key n values bad Hlen Hbad Hnot)
      as (kvs & key & val & rest & -> & Hkey & Hrest).
    apply Dict_bad_key; [|done]. apply templateValue_kind; [|done].
    rewrite Forall_forall in Hvalues. apply Hvalues.
    apply elem_of_app. right. by left.
  - intros kvs Hne ->. by apply Dict_keyValues.
Qed.

Lemma Dict_on_template_values_witness :
  (Nat.odd 4 = true →
   Dict [VString "title"; VString "Demo"; VInt 2; VBool true]
   = Returns (Err "parameters must be even"))
  ∧ (Nat.even 4 = true →
     (∃ key, key ∈ [VString "title"; VInt 2] ∧ ∀ k, key ≠ VString k) →
     Dict [VString "title"; VString "Demo"; VInt 2; VBool true]
     = Returns (Err ("type must equal to " +:+ q "string")))
  ∧ (∀ kvs, kvs ≠ [] →
     [VString "title"; VString "Demo"; VInt 2; VBool true] = keyValues kvs →
     Dict [VString "title"; VString "Demo"; VInt 2; VBool true]
     = Returns (Ok (pairsMap ∅ kvs))).
Proof.
  apply (Dict_on_template_values [VString "title"; VString "Demo"; VInt 2; VBool true]).
  repeat constructor.
Defined.

(** C10.  The empty argument list has even length and passes the parity
    check; the first iteration of the loop then takes [values[0]],
    [values[1]] and [values[2:]] of it, which is out of range: the call
    panics, it returns neither the empty mapping nor an error. *)
Theorem Dict_empty_panics :
  Nat.even (length (@nil any)) = true
  ∧ Dict [] = Panics "runtime error: slice bounds out of range [2:0]"
  ∧ Dict [] ≠ Returns (Ok ∅)
  ∧ ∀ err, Dict [] ≠ Returns (Err err).
Proof. by repeat split. Qed.

(** ** The path mapping of the handler *)

Lemma htmlToGohtml_html (stem : string) :
  htmlToGohtml (stem +:+ "html") = Returns (RenderTemplate (stem +:+ "gohtml")).
Proof.
  unfold htmlToGohtml.
  replace (_ <? 4)%nat with false
    by (symmetry; apply Nat.ltb_ge; rewrite length_append; simpl; lia).
  pose proof (dropSuffix_append stem "html") as Hdrop.
  change (String.length "html") with 4%nat in Hdrop. by rewrite Hdrop.
Qed.

(** C7.  The rules of the [switch], in order: without an extension the
    index file name is joined to the path and the [.html] rule applies to
    the result; [.html] is cut off by its last four bytes and replaced
    by [gohtml]; [.gohtml] is rendered as it is; every other extension
    takes the [default] case.  The slice never goes out of range. *)
Theorem routePath_rules (URLPath : string) :
  let ext := filepath.Ext URLPath in
  let curSrc := path.Join ["./src"; URLPath] in
  (ext = "" →
     routePath URLPath = htmlToGohtml (path.Join [curSrc; "index.html"])
     ∧ ∃ dir, path.Join [curSrc; "index.html"] = dir +:+ "index.html"
              ∧ routePath URLPath = Returns (RenderTemplate (dir +:+ "index.gohtml")))
  ∧ (ext = ".html" →
     routePath URLPath = htmlToGohtml curSrc
     ∧ ∃ stem, curSrc = stem +:+ ".html"
               ∧ routePath URLPath = Returns (RenderTemplate (stem +:+ ".gohtml")))
  ∧ (ext = ".gohtml" → routePath URLPath = Returns (RenderTemplate curSrc))
  ∧ (ext ≠ "" → ext ≠ ".html" → ext ≠ ".gohtml" →
     routePath URLPath = Returns Default).
Proof.
  cbv zeta. unfold routePath.
  set (curSrc := path.Join ["./src"; URLPath]).
  split; [|split; [|split]].
  - intros Hext. rewrite Hext. split; [done|].
    destruct (Join_index curSrc) as [dir Hdir]. exists dir. split; [done|].
    cbn [String.eqb]. rewrite Hdir.
    change (dir +:+ "index.html") with (dir +:+ "index." +:+ "html").
    rewrite <- append_assoc, htmlToGohtml_html. by rewrite append_assoc.
  - intros Hext.
    destruct (Join_src_ext URLPath) as [stem Hstem]; [by rewrite Hext..|].
    fold curSrc in Hstem. rewrite Hext in *. split; [done|].
    exists stem. split; [done|]. rewrite Hstem.
    change (stem +:+ ".html") with (stem +:+ "." +:+ "html").
    change (".html" =? "") with false. change (".html" =? ".html") with true.
    cbv iota. rewrite <- append_assoc, htmlToGohtml_html. by rewrite append_assoc.
  - by intros ->.
  - intros H1 H2 H3. by rewrite !eqb_string_false.
Qed.

(** ** The reference extractor *)

Lemma curTmplSet_foldl_lookup (matchList : list (list string)) : ∀ acc name,
  foldl addTmplName acc matchList !! name
  = match acc !! name with
    | Some v => Some v
    | None => if decide (name ∈ submatchNames matchList) then Some name else None
    end.
Proof.
  induction matchList as [|m ml IH]; intros acc name; cbn [foldl].
  { destruct (acc !! name); [done|].
    change (submatchNames []) with (@nil string).
    by rewrite decide_False by apply not_elem_of_nil. }
  rewrite IH. change (submatchNames (m :: ml)) with (nth 1 m "" :: submatchNames ml).
  unfold addTmplName. set (n := nth 1 m "").
  destruct (acc !! n) as [v|] eqn:Hn.
  - destruct (acc !! name) as [v'|] eqn:Hname; [done|].
    assert (name ≠ n) by congruence.
    apply decide_ext. rewrite elem_of_cons. tauto.
  - destruct (decide (name = n)) as [->|Hne].
    + rewrite lookup_insert_eq, Hn. by rewrite decide_True by left.
    + rewrite lookup_insert_ne by done.
      destruct (acc !! name); [done|].
      apply decide_ext. rewrite elem_of_cons. tauto.
Qed.

Lemma curTmplSet_lookup (matchList : list (list string)) (name : string) :
  curTmplSet matchList !! name
  = if decide (name ∈ submatchNames matchList) then Some name else None.
Proof.
  unfold curTmplSet. by rewrite curTmplSet_foldl_lookup, lookup_empty.
Qed.

Lemma curTmplSet_dom (matchList : list (list string)) :
  dom (curTmplSet matchList) = list_to_set (submatchNames matchList).
Proof.
  apply set_eq. intros name.
  rewrite elem_of_dom, curTmplSet_lookup, elem_of_list_to_set.
  case_decide; [by eauto|]. split; [by intros [? ?]|done].
Qed.

Lemma curTmplSet_size (matchList : list (list string)) :
  size (curTmplSet matchList) = length (remove_dups (submatchNames matchList)).
Proof.
  rewrite <- size_dom, curTmplSet_dom.
  rewrite <- (size_list_to_set (C := gset string) (remove_dups _))
    by apply NoDup_remove_dups.
  f_equal. apply set_eq. intros name.
  by rewrite !elem_of_list_to_set, elem_of_remove_dups.
Qed.

Lemma star_Some {R : Type} (p : ascii → bool) (k : string → option R) (s : string) r :
  star p s k = Some r → ∃ s', k s' = Some r.
Proof.
  induction s as [|c s IH]; simpl; [by eauto|].
  destruct (p c); [|by eauto].
  destruct (star p s k) as [r'|] eqn:Hstar; [|by eauto].
  intros [= ->]. by apply IH.
Qed.

(** A match has as many submatches as the search started with. *)
Lemma backtrack_submatches {R : Type} (P : R → Prop) (n : nat) (r : R) (re : Regexp) :
  ∀ s caps (k : string → list string → option R),
    length caps = n →
    (∀ rest caps', length caps' = n → k rest caps' = Some r → P r) →
    backtrack re s caps k = Some r → P r.
Proof.
  induction re as [|cc|cc|r1 IH|r1 IH1 r2 IH2|idx r1 IH]; intros s caps k Hlen Hk; simpl.
  - by apply Hk.
  - destruct s as [|c s]; [done|]. destruct (accepts cc c); [by apply Hk|done].
  - intros [s' Hs']%star_Some. by eapply Hk.
  - destruct (backtrack r1 s caps k) as [r'|] eqn:Hr1.
    + intros [= ->]. by eapply IH.
    + by apply Hk.
  - apply IH1; [done|]. intros rest caps' Hlen'. by apply IH2.
  - apply IH; [done|]. intros rest caps' Hlen'. apply Hk. by rewrite length_insert.
Qed.

Lemma matchAt_submatches (re : Regexp) (s : string) m rest :
  matchAt re s = Some (m, rest) → length m = S (numSubexp re).
Proof.
  unfold matchAt.
  apply (backtrack_submatches (λ r, length r.1 = S (numSubexp re)) (S (numSubexp re))).
  - apply length_replicate.
  - intros rest' caps' Hlen [= <-]. simpl. by rewrite length_insert.
Qed.

Lemma findAllFrom_submatches (re : Regexp) (s : string) : ∀ skip m,
  m ∈ findAllFrom re s skip → length m = S (numSubexp re).
Proof.
  induction s as [|c s IH]; intros skip m; destruct skip as [|skip]; simpl.
  - destruct (matchAt re "") as [[m' rest]|] eqn:Hm; [|by intros ?%elem_of_nil].
    intros ->%list_elem_of_singleton. by eapply matchAt_submatches.
  - by intros ?%elem_of_nil.
  - destruct (matchAt re (String c s)) as [[m' rest]|] eqn:Hm; [|by apply IH].
    intros [->|Hin]%elem_of_cons; [by eapply matchAt_submatches|by eapply IH].
  - apply IH.
Qed.

(** Every match of [reTmpl] has the two entries that [match[1]] needs. *)
Lemma reTmpl_match_length (content : string) (m : list string) :
  m ∈ FindAllStringSubmatch reTmpl content → length m = 2%nat.
Proof. apply findAllFrom_submatches. Qed.

#[local] Arguments Ascii.eqb : simpl never.

(** A match of [reTmpl] starts with two opening braces. *)
Lemma matchAt_reTmpl_open (s : string) :
  is_Some (matchAt reTmpl s) → ∃ s', s = String "{" (String "{" s').
Proof.
  destruct s as [|c [|c' s']]; unfold matchAt, reTmpl; simpl.
  - by intros [? ?].
  - destruct (Ascii.eqb_spec "{" c); by intros [? ?].
  - destruct (Ascii.eqb_spec "{" c) as [<-|]; [|by intros [? ?]].
    destruct (Ascii.eqb_spec "{" c') as [<-|]; [|by intros [? ?]]. eauto.
Qed.

Lemma findAllFrom_no_braces (s : string) : ∀ skip,
  hasOpenBraces s = false → findAllFrom reTmpl s skip = [].
Proof.
  induction s as [|c s IH]; intros skip Hno; [by destruct skip|].
  assert (Hs : hasOpenBraces s = false).
  { simpl in Hno. destruct s; [done|]. by apply orb_false_iff in Hno as [_ ?]. }
  destruct skip as [|skip]; simpl; [|by apply IH].
  destruct (matchAt reTmpl (String c s)) as [[m rest]|] eqn:Hm; [|by apply IH].
  destruct (matchAt_reTmpl_open (String c s)) as [s' [= -> ->]]; [by rewrite Hm|].
  done.
Qed.

(** The set holds exactly the names captured by the matches of the
    pattern, each under itself, and as many entries as there are
    distinct names, so a name matched several times is entered once.
    Content without a match gives the empty set, as content in which two
    opening braces never occur does. *)
Lemma extractor_distinct_names (content : string) :
  let matchList := FindAllStringSubmatch reTmpl content in
  let names := submatchNames matchList in
  (∀ name, curTmplSet matchList !! name
           = if decide (name ∈ names) then Some name else None)
  ∧ size (curTmplSet matchList) = length (remove_dups names)
  ∧ (matchList = [] → curTmplSet matchList = ∅)
  ∧ (hasOpenBraces content = false → curTmplSet matchList = ∅).
Proof.
  cbv zeta. split; [|split; [|split]].
  - apply curTmplSet_lookup.
  - apply curTmplSet_size.
  - by intros ->.
  - intros Hno. unfold FindAllStringSubmatch. by rewrite findAllFrom_no_braces.
Qed.

(** The run before the closing braces is greedy and stops at the end of
    the line only: of two directives on one line the pattern matches
    once, from the first opening braces to the last closing braces, and
    captures the first name. *)
Lemma same_line_directives :
  FindAllStringSubmatch reTmpl
    (tmplDirective "nav.gohtml" +:+ " " +:+ tmplDirective "logo.gohtml")
  = [[tmplDirective "nav.gohtml" +:+ " " +:+ tmplDirective "logo.gohtml";
      "nav.gohtml"]].
Proof. by vm_compute. Qed.

(** C6, where the code leaves the claim.  The run of bytes before the
    closing braces is greedy, so the first directive of a line takes
    the rest of the line into its match.  Of three directives on one
    line, the last two for the same template, the extractor finds one
    match and enters the first name only: the template named twice has
    no entry, where the claim gives it exactly one. *)
Theorem directives_on_one_line_are_missed :
  FindAllStringSubmatch reTmpl sameLinePage = [[sameLinePage; "y.gohtml"]]
  ∧ curTmplSet (FindAllStringSubmatch reTmpl sameLinePage)
    = {[ "y.gohtml" := "y.gohtml" ]}
  ∧ curTmplSet (FindAllStringSubmatch reTmpl sameLinePage) !! "x.gohtml" = None.
Proof. by vm_compute. Qed.

(** Two directives that name the same template, one per line, give one
    entry; a further name gives a second one. *)
Lemma extractor_duplicates :
  curTmplSet (FindAllStringSubmatch reTmpl
                (lines [tmplDirective "nav.gohtml"; "<p>text</p>";
                        tmplDirective "nav.gohtml"; tmplDirective "logo.gohtml"]))
  = {[ "nav.gohtml" := "nav.gohtml"; "logo.gohtml" := "logo.gohtml" ]}.
Proof. by vm_compute. Qed.

(** ** The resolver *)

Lemma resolvedBundle_resolve UrlFS diskFS Config tmplFileList fuel curSrc :
  resolvedBundle UrlFS diskFS Config tmplFileList fuel curSrc
  = match resolve UrlFS diskFS tmplFileList (IsEmbed Config) fuel curSrc with
    | None => None
    | Some (Err err) => Some (Err err)
    | Some (Ok filterTmpl) => Some (Ok (filterTmpl ++ [curSrc]))
    end.
Proof. reflexivity. Qed.

(** C1, as the code has it.  [getAllTmplName] keeps no record of the
    files it has visited.  When two candidates include each other by
    base name, the call on either of them, and on any page from which
    they are reached, is unfinished at every depth of recursion: no
    bundle is returned. *)
Theorem cycle_never_returns UrlFS diskFS allTmpl isEmbed (page A B : string) :
  rtc (includes UrlFS diskFS allTmpl isEmbed) page A →
  includes UrlFS diskFS allTmpl isEmbed A B →
  includes UrlFS diskFS allTmpl isEmbed B A →
  neverReturns UrlFS diskFS allTmpl isEmbed page.
Proof.
  intros Hpage HAB HBA. eapply reach_neverReturns; [done|].
  apply cycle_neverReturns. eapply tc_l; [done|]. by apply tc_once.
Qed.

(** A reference between two files of a sample site, by evaluation. *)
Ltac sample_includes := split; [set_solver | vm_compute; eauto].

Lemma cycleSite_a_b :
  includes cycleSite cycleSite cycleTmpl false "tmpl/a.gohtml" "tmpl/b.gohtml".
Proof. sample_includes. Defined.

Lemma cycleSite_b_a :
  includes cycleSite cycleSite cycleTmpl false "tmpl/b.gohtml" "tmpl/a.gohtml".
Proof. sample_includes. Defined.

Lemma cycleSite_index_a :
  includes cycleSite cycleSite cycleTmpl false "src/index.gohtml" "tmpl/a.gohtml".
Proof. sample_includes. Defined.

(** The index page of [cycleSite] is never resolved. *)
Lemma cycle_never_returns_witness :
  neverReturns cycleSite cycleSite cycleTmpl false "src/index.gohtml".
Proof.
  apply (cycle_never_returns cycleSite cycleSite cycleTmpl false
           "src/index.gohtml" "tmpl/a.gohtml" "tmpl/b.gohtml").
  - apply rtc_once, cycleSite_index_a.
  - apply cycleSite_a_b.
  - apply cycleSite_b_a.
Defined.

(** C1 fails as stated: [tmpl/a.gohtml] and [tmpl/b.gohtml] include each
    other, and the resolution of [tmpl/a.gohtml] does not terminate. *)
Lemma cycle_resolution_diverges :
  includes cycleSite cycleSite cycleTmpl true "tmpl/a.gohtml" "tmpl/b.gohtml"
  ∧ includes cycleSite cycleSite cycleTmpl true "tmpl/b.gohtml" "tmpl/a.gohtml"
  ∧ neverReturns cycleSite cycleSite cycleTmpl true "tmpl/a.gohtml".
Proof.
  assert (Hab : includes cycleSite cycleSite cycleTmpl true "tmpl/a.gohtml" "tmpl/b.gohtml")
    by sample_includes.
  assert (Hba : includes cycleSite cycleSite cycleTmpl true "tmpl/b.gohtml" "tmpl/a.gohtml")
    by sample_includes.
  split; [done|]. split; [done|].
  apply cycle_neverReturns. eapply tc_l; [done|]. by apply tc_once.
Qed.

(** A reference from a fragment back to the page is not followed when
    the page is not a candidate: the resolution of [src/a.gohtml], which
    includes [b.gohtml], returns although [tmpl/b.gohtml] names
    [a.gohtml]. *)
Lemma reference_to_page_not_followed :
  resolvedBundle
    {[ "src/a.gohtml" := tmplDirective "b.gohtml";
       "tmpl/b.gohtml" := tmplDirective "a.gohtml" ]} ∅
    (demoConfig true) ["tmpl/b.gohtml"] 3 "src/a.gohtml"
  = Some (Ok ["tmpl/b.gohtml"; "src/a.gohtml"]).
Proof. by vm_compute. Qed.

(** C9.  Resolution is a function of the page path, the candidate list
    and the file contents: whenever two runs on the same inputs return,
    whatever depth of recursion each was allowed, they return the same
    bundle, or the same error. *)
Theorem resolution_deterministic UrlFS diskFS Config tmplFileList
    (fuel1 fuel2 : nat) (page : string) (r1 r2 : result (list string)) :
  resolvedBundle UrlFS diskFS Config tmplFileList fuel1 page = Some r1 →
  resolvedBundle UrlFS diskFS Config tmplFileList fuel2 page = Some r2 →
  r1 = r2.
Proof.
  rewrite !resolvedBundle_resolve. intros H1 H2.
  destruct (resolve _ _ _ _ fuel1 page) as [a1|] eqn:E1; [|done].
  destruct (resolve _ _ _ _ fuel2 page) as [a2|] eqn:E2; [|done].
  rewrite (resolve_agree _ _ _ _ _ _ _ _ _ E1 E2) in H1. congruence.
Qed.

Lemma resolution_deterministic_witness :
  resolvedBundle aboutSite aboutSite (demoConfig false) aboutTmpl 2 "src/about.gohtml"
    = Some (Ok ["tmpl/header.gohtml"; "src/about.gohtml"])
  ∧ resolvedBundle aboutSite aboutSite (demoConfig false) aboutTmpl 9 "src/about.gohtml"
    = Some (Ok ["tmpl/header.gohtml"; "src/about.gohtml"])
  ∧ Ok ["tmpl/header.gohtml"; "src/about.gohtml"]
    = Ok ["tmpl/header.gohtml"; "src/about.gohtml"].
Proof.
  split; [by vm_compute|]. split; [by vm_compute|].
  apply (resolution_deterministic aboutSite aboutSite (demoConfig false) aboutTmpl
           2 9 "src/about.gohtml"); by vm_compute.
Defined.

(** C5.  One call of [getAllTmplName] returns, candidate by candidate
    in the order of the list, the candidate itself followed by the
    result of the call on it when the base name of the candidate is in
    the set of the current file, and nothing otherwise.  The full path
    of a candidate is never compared. *)
Theorem selection_by_base_name UrlFS diskFS allTmpl isEmbed
    (fuel : nat) (filePath content : string) (res : list string) :
  readFile UrlFS diskFS isEmbed filePath = Ok content →
  getAllTmplName UrlFS diskFS (S fuel) filePath allTmpl isEmbed = Some (Ok res) →
  let set := curTmplSet (FindAllStringSubmatch reTmpl content) in
  let rec := fun p => getAllTmplName UrlFS diskFS fuel p allTmpl isEmbed in
  res = flat_map (appended rec set) allTmpl
  ∧ (∀ t, appended rec set t ≠ [] ↔ filepath.Base t ∈ dom set)
  ∧ (∀ t, hd_error (appended rec set t) = Some t ↔ filepath.Base t ∈ dom set)
  ∧ (∀ t, t ∈ allTmpl → filepath.Base t ∈ dom set → t ∈ res).
Proof.
  intros Hread Hres set rec.
  pose proof (resolve_S_Ok _ _ _ _ _ _ _ _ Hread Hres) as Heq.
  assert (Happ : ∀ t, filepath.Base t ∈ dom set ↔ ∃ v, set !! filepath.Base t = Some v).
  { intros t. by rewrite elem_of_dom. }
  split; [done|]. split; [|split].
  - intros t. rewrite Happ. unfold appended.
    destruct (set !! filepath.Base t); split; try done; [by eauto|by intros [? ?]].
  - intros t. rewrite Happ. unfold appended.
    destruct (set !! filepath.Base t); split; try done; [by eauto|by intros [? ?]].
  - intros t Ht [v Hv]%Happ. rewrite Heq, list_elem_of_In, in_flat_map.
    exists t. rewrite <- !list_elem_of_In. split; [done|].
    unfold appended. fold set. rewrite Hv. by left.
Qed.

(** Two candidates with the same base name in different directories are
    both selected by one reference. *)
Lemma selection_by_base_name_witness :
  readFile twinSite twinSite true "src/index.gohtml" = Ok (tmplDirective "header.gohtml")
  ∧ getAllTmplName twinSite twinSite 2 "src/index.gohtml" twinTmpl true
    = Some (Ok ["tmpl/header.gohtml"; "tmpl/old/header.gohtml"])
  ∧ ["tmpl/header.gohtml"; "tmpl/old/header.gohtml"]
    = flat_map
        (appended
           (fun p => getAllTmplName twinSite twinSite 1 p twinTmpl true)
           (curTmplSet (FindAllStringSubmatch reTmpl (tmplDirective "header.gohtml"))))
        twinTmpl.
Proof.
  split; [by vm_compute|]. split; [by vm_compute|].
  apply (selection_by_base_name twinSite twinSite twinTmpl true
           1 "src/index.gohtml" (tmplDirective "header.gohtml")
           ["tmpl/header.gohtml"; "tmpl/old/header.gohtml"]); by vm_compute.
Defined.

(** A reference that spells out the path of a candidate selects
    nothing. *)
Lemma full_path_reference_selects_nothing :
  getAllTmplName {[ "src/index.gohtml" := tmplDirective "tmpl/header.gohtml";
                    "tmpl/header.gohtml" := "<b>header</b>" ]} ∅
    3 "src/index.gohtml" ["tmpl/header.gohtml"] true
  = Some (Ok []).
Proof. by vm_compute. Qed.

(** C3, as the code has it.  A bundle that is returned is not empty,
    ends with the path of the requested page, and holds candidates of
    the list before it.  Nothing removes a path that is reached
    twice. *)
Theorem bundle_ends_with_page UrlFS diskFS Config tmplFileList
    (fuel : nat) (page : string) (bundle : list string) :
  resolvedBundle UrlFS diskFS Config tmplFileList fuel page = Some (Ok bundle) →
  bundle ≠ []
  ∧ last bundle = Some page
  ∧ ∃ deps, bundle = deps ++ [page] ∧ ∀ t, t ∈ deps → t ∈ tmplFileList.
Proof.
  rewrite resolvedBundle_resolve.
  destruct (resolve _ _ _ _ fuel page) as [[deps|err]|] eqn:Hres; [|done..].
  intros [= <-]. split; [by destruct deps|]. split; [by rewrite last_snoc|].
  exists deps. split; [done|]. intros t Ht. by eapply resolve_candidates.
Qed.

Lemma bundle_ends_with_page_witness :
  resolvedBundle diamondSite diamondSite (demoConfig true) diamondTmpl 3 "src/index.gohtml"
    = Some (Ok ["tmpl/left.gohtml"; "tmpl/base.gohtml";
                "tmpl/right.gohtml"; "tmpl/base.gohtml"; "src/index.gohtml"])
  ∧ last ["tmpl/left.gohtml"; "tmpl/base.gohtml";
          "tmpl/right.gohtml"; "tmpl/base.gohtml"; "src/index.gohtml"]
    = Some "src/index.gohtml".
Proof.
  split; [by vm_compute|].
  apply (bundle_ends_with_page diamondSite diamondSite (demoConfig true) diamondTmpl
           3 "src/index.gohtml"). by vm_compute.
Defined.

(** C3 fails as stated: the two fragments of the page both include
    [tmpl/base.gohtml], and the bundle that is returned holds it
    twice. *)
Lemma diamond_bundle_repeats :
  resolvedBundle diamondSite diamondSite (demoConfig true) diamondTmpl 3 "src/index.gohtml"
    = Some (Ok ["tmpl/left.gohtml"; "tmpl/base.gohtml";
                "tmpl/right.gohtml"; "tmpl/base.gohtml"; "src/index.gohtml"])
  ∧ ¬ NoDup ["tmpl/left.gohtml"; "tmpl/base.gohtml";
             "tmpl/right.gohtml"; "tmpl/base.gohtml"; "src/index.gohtml"].
Proof.
  split; [by vm_compute|]. intros Hnd.
  apply NoDup_cons in Hnd as [_ Hnd]. apply NoDup_cons in Hnd as [Hin _].
  apply Hin. set_solver.
Qed.

(** C2, as the code has it.  When no cycle of references is reached from
    a readable page, the resolution returns within a depth of one more
    than the number of candidates; the bundle ends with the page and
    holds, besides it, exactly the candidates that are reached from it
    through references, each at least once. *)
Theorem acyclic_bundle UrlFS diskFS Config tmplFileList (page content : string) :
  readFile UrlFS diskFS (IsEmbed Config) page = Ok content →
  acyclicFrom UrlFS diskFS tmplFileList (IsEmbed Config) page →
  ∃ bundle,
    resolvedBundle UrlFS diskFS Config tmplFileList (S (length tmplFileList)) page
      = Some (Ok bundle)
    ∧ last bundle = Some page
    ∧ ∀ t, t ∈ bundle ↔
           t = page ∨ tc (includes UrlFS diskFS tmplFileList (IsEmbed Config)) page t.
Proof.
  intros Hread Hacyc. rewrite resolvedBundle_resolve.
  destruct (acyclic_returns _ _ _ _ _ Hacyc) as [[deps|err] Hres]; rewrite Hres.
  - exists (deps ++ [page]). split; [done|]. split; [by rewrite last_snoc|].
    intros t. rewrite elem_of_app, list_elem_of_singleton.
    rewrite (resolve_elem_of _ _ _ _ _ _ _ Hres). tauto.
  - apply resolve_Err_inv in Hres. congruence.
Qed.

Lemma acyclic_bundle_witness :
  ∃ bundle,
    resolvedBundle sharedSite sharedSite (demoConfig false) sharedTmpl 3 "src/index.gohtml"
      = Some (Ok bundle)
    ∧ last bundle = Some "src/index.gohtml"
    ∧ ∀ t, t ∈ bundle ↔
           t = "src/index.gohtml"
           ∨ tc (includes sharedSite sharedSite sharedTmpl false) "src/index.gohtml" t.
Proof.
  apply (acyclic_bundle sharedSite sharedSite (demoConfig false) sharedTmpl
           "src/index.gohtml"
           (lines [tmplDirective "nav.gohtml"; tmplDirective "logo.gohtml"])).
  - by vm_compute.
  - apply (returns_acyclic _ _ _ _ 3 _
             (Ok ["tmpl/logo.gohtml"; "tmpl/nav.gohtml"; "tmpl/logo.gohtml"])).
    by vm_compute.
Defined.

(** C2 fails as stated: no cycle is reached from the page, and the
    fragment [tmpl/logo.gohtml], included by the page and by
    [tmpl/nav.gohtml], is in the bundle twice. *)
Lemma shared_fragment_listed_twice :
  acyclicFrom sharedSite sharedSite sharedTmpl false "src/index.gohtml"
  ∧ resolvedBundle sharedSite sharedSite (demoConfig false) sharedTmpl 3 "src/index.gohtml"
    = Some (Ok ["tmpl/logo.gohtml"; "tmpl/nav.gohtml"; "tmpl/logo.gohtml";
                "src/index.gohtml"])
  ∧ count_occ string_dec
      ["tmpl/logo.gohtml"; "tmpl/nav.gohtml"; "tmpl/logo.gohtml"; "src/index.gohtml"]
      "tmpl/logo.gohtml" = 2%nat.
Proof.
  split; [|split; by vm_compute].
  apply (returns_acyclic _ _ _ _ 3 _
           (Ok ["tmpl/logo.gohtml"; "tmpl/nav.gohtml"; "tmpl/logo.gohtml"])).
  by vm_compute.
Qed.

(** ** The handler *)

Section HandlerFacts.
Context {engine : TemplateEngine}.
Variables (UrlFS diskFS : gmap string string) (Config : ConfigT).
Variable tmplFileList : list string.

Lemma parseFiles_unreadable (read : string → result string) (l : list string) :
  ∀ (t : Template) file err,
    file ∈ l → read file = Err err → ∃ errText, parseFiles read t l = Err errText.
Proof.
  induction l as [|f l IH]; intros t file err Hin Hread; [by apply elem_of_nil in Hin|].
  simpl. apply elem_of_cons in Hin as [<-|Hin].
  - rewrite Hread. eauto.
  - destruct (read f) as [text|e]; [|by eauto].
    destruct (template_Parse t (filepath.Base f) text) as [t'|e]; [|by eauto].
    by eapply IH.
Qed.

(** A file of the bundle that cannot be read makes the compilation
    fail. *)
Lemma compileBundle_unreadable (curSrc : string) (bundle : list string) file err :
  file ∈ bundle → readFile UrlFS diskFS (IsEmbed Config) file = Err err →
  ∃ errText, compileBundle UrlFS diskFS Config curSrc bundle = Err errText.
Proof.
  intros Hin. unfold readFile, compileBundle. destruct (IsEmbed Config).
  - unfold UrlFS_ReadFile, ParseFS. destruct (UrlFS !! file) eqn:Hfile; [done|].
    intros _. destruct (find _ bundle) as [p|] eqn:Hfind; [by eauto|].
    apply list_elem_of_In in Hin.
    apply (find_none _ _ Hfind) in Hin. by rewrite bool_decide_eq_false in Hin.
  - intros Hread. unfold ParseFiles. destruct bundle as [|f l] eqn:Hb.
    + by apply elem_of_nil in Hin.
    + by eapply parseFiles_unreadable.
Qed.

Lemma renderTemplate_unresolved fuel curSrc err :
  resolvedBundle UrlFS diskFS Config tmplFileList fuel curSrc = Some (Err err) →
  renderTemplate UrlFS diskFS Config tmplFileList fuel curSrc newResponse
  = Some (badRequest "", "").
Proof.
  intros Hres. unfold renderTemplate. rewrite Hres.
  unfold badRequest, WriteHeader, Header_Set, newResponse. simpl.
  by rewrite insert_empty.
Qed.

Lemma renderTemplate_uncompiled fuel curSrc bundle errText :
  resolvedBundle UrlFS diskFS Config tmplFileList fuel curSrc = Some (Ok bundle) →
  compileBundle UrlFS diskFS Config curSrc bundle = Err errText →
  renderTemplate UrlFS diskFS Config tmplFileList fuel curSrc newResponse
  = Some (badRequest errText, printedLine bundle).
Proof.
  intros Hres Hcomp. unfold renderTemplate. rewrite Hres, Hcomp.
  unfold badRequest, Write, WriteHeader, Header_Set, newResponse. simpl.
  by rewrite insert_empty.
Qed.

Lemma resolvedBundle_unreadable fuel curSrc err :
  readFile UrlFS diskFS (IsEmbed Config) curSrc = Err err →
  resolvedBundle UrlFS diskFS Config tmplFileList (S fuel) curSrc = Some (Err err).
Proof.
  intros Hread. rewrite resolvedBundle_resolve, resolve_S. by rewrite Hread.
Qed.
End HandlerFacts.

(** C4.  On the template path, from a fresh response: when the page
    cannot be read, the answer is status 400 with an empty body; when
    the bundle does not compile, because one of its files cannot be read
    (a candidate that the resolver could not read is still in the
    bundle) or does not parse, the answer is status 400 with the text of
    the error as its body.  In both cases the answer is fixed before
    [Execute] is reached, whatever the engine would have rendered. *)
Theorem failures_answered_with_400 {engine : TemplateEngine}
    UrlFS diskFS Config tmplFileList (fuel : nat) (URLPath curSrc : string) :
  routePath URLPath = Returns (RenderTemplate curSrc) →
  (∀ err, readFile UrlFS diskFS (IsEmbed Config) curSrc = Err err →
     handler UrlFS diskFS Config tmplFileList (S fuel) URLPath newResponse
     = Some (Returns (badRequest "", "")))
  ∧ (∀ bundle,
       resolvedBundle UrlFS diskFS Config tmplFileList fuel curSrc = Some (Ok bundle) →
       (∀ file err, file ∈ bundle →
          readFile UrlFS diskFS (IsEmbed Config) file = Err err →
          ∃ errText, compileBundle UrlFS diskFS Config curSrc bundle = Err errText)
       ∧ (∀ errText,
            compileBundle UrlFS diskFS Config curSrc bundle = Err errText →
            handler UrlFS diskFS Config tmplFileList fuel URLPath newResponse
            = Some (Returns (badRequest errText, printedLine bundle))))
  ∧ (∀ errText, statusCode (badRequest errText) = 400%nat
                ∧ body (badRequest errText) = errText).
Proof.
  intros Hroute. unfold handler. rewrite Hroute. split; [|split].
  - intros err Hread.
    by erewrite renderTemplate_unresolved by by apply resolvedBundle_unreadable.
  - intros bundle Hres. split.
    + intros file err. apply compileBundle_unreadable.
    + intros errText Hcomp. by erewrite renderTemplate_uncompiled.
  - done.
Qed.

(** The fragment [tmpl/gone.gohtml] was listed at startup and is gone:
    the resolver lists it all the same, the compilation cannot read it,
    and the request for the index page is answered with status 400 and
    the error text. *)
Lemma failures_answered_with_400_witness :
  routePath "/" = Returns (RenderTemplate "src/index.gohtml")
  ∧ handler staleSite staleSite (demoConfig false) staleTmpl 3 "/" newResponse
    = Some (Returns
              (badRequest "open tmpl/gone.gohtml: no such file or directory",
               printedLine ["tmpl/gone.gohtml"; "src/index.gohtml"])).
Proof.
  split; [by vm_compute|].
  destruct (failures_answered_with_400 staleSite staleSite (demoConfig false)
              staleTmpl 3 "/" "src/index.gohtml") as (_ & Hbundle & _);
    [by vm_compute|].
  destruct (Hbundle ["tmpl/gone.gohtml"; "src/index.gohtml"]) as [_ Hcomp];
    [by vm_compute|].
  apply Hcomp. by vm_compute.
Defined.

(** ** More about [Dict] *)

Lemma Dict_loop_Ok_inv (n : nat) : ∀ values dict m,
  (length values ≤ n)%nat →
  Dict_loop dict values = Returns (Ok m) →
  ∃ kvs, kvs ≠ [] ∧ values = keyValues kvs ∧ m = pairsMap dict kvs.
Proof.
  induction n as [|n IH]; intros values dict m Hlen.
  { destruct values; [done|simpl in Hlen; lia]. }
  destruct values as [|key [|val rest]]; [done..|].
  cbn [Dict_loop]. destruct key as [| | |k| |]; try done.
  - cbn [reflect.ValueOf_Kind]. destruct rest as [|key' rest'].
    + intros [= <-]. by exists [(k, val)].
    + cbn [length Nat.eqb]. intros Hloop.
      apply IH in Hloop as (kvs & Hne & -> & ->); [|simpl in *; lia].
      by exists ((k, val) :: kvs).
  - cbn [reflect.ValueOf_Kind]. by destruct (reflect.ValueOf_Kind key).
Qed.

(** X1.  [Dict] returns a mapping for the non-empty lists of alternating
    string keys and values and for no other argument list, and the
    mapping is the one built from the pairs in order. *)
Theorem Dict_returns_mapping_iff (values : list any) (m : gmap string any) :
  Dict values = Returns (Ok m)
  ↔ ∃ kvs, kvs ≠ [] ∧ values = keyValues kvs ∧ m = pairsMap ∅ kvs.
Proof.
  split.
  - unfold Dict. destruct (negb _); [done|]. by apply (Dict_loop_Ok_inv (length values)).
  - intros (kvs & Hne & -> & ->). by apply Dict_keyValues.
Qed.

Lemma pairsMap_app (kvs1 kvs2 : list (string * any)) (dict : gmap string any) :
  pairsMap dict (kvs1 ++ kvs2) = pairsMap (pairsMap dict kvs1) kvs2.
Proof. apply foldl_app. Qed.

Lemma pairsMap_lookup_other (kvs : list (string * any)) : ∀ (dict : gmap string any) k,
  k ∉ kvs.*1 → pairsMap dict kvs !! k = dict !! k.
Proof.
  induction kvs as [|[k' v'] kvs IH]; intros dict k Hk; [done|].
  rewrite fmap_cons, not_elem_of_cons in Hk. destruct Hk as [Hne Hk].
  cbn [pairsMap foldl]. fold (pairsMap (<[k':=v']> dict) kvs).
  rewrite IH by done. by rewrite lookup_insert_ne.
Qed.

Lemma pairsMap_dom (kvs : list (string * any)) : ∀ (dict : gmap string any),
  dom (pairsMap dict kvs) = dom dict ∪ list_to_set kvs.*1.
Proof.
  induction kvs as [|[k v] kvs IH]; intros dict.
  - simpl. set_solver.
  - cbn [pairsMap foldl]. fold (pairsMap (<[k:=v]> dict) kvs).
    rewrite IH, dom_insert_L, fmap_cons, list_to_set_cons. set_solver.
Qed.

(** X2.  When a key is given several times, the mapping holds the value
    of its last pair; the keys of the mapping are exactly the keys
    given. *)
Theorem Dict_last_pair_wins (kvs1 kvs2 : list (string * any)) (k : string) (v : any) :
  k ∉ kvs2.*1 →
  ∃ m, Dict (keyValues (kvs1 ++ (k, v) :: kvs2)) = Returns (Ok m)
       ∧ m !! k = Some v
       ∧ dom m = list_to_set (kvs1 ++ (k, v) :: kvs2).*1.
Proof.
  intros Hk. exists (pairsMap ∅ (kvs1 ++ (k, v) :: kvs2)). split; [|split].
  - apply Dict_keyValues. by destruct kvs1.
  - rewrite pairsMap_app. cbn [pairsMap foldl].
    fold (pairsMap (<[k:=v]> (pairsMap ∅ kvs1)) kvs2).
    rewrite pairsMap_lookup_other by done. apply lookup_insert_eq.
  - rewrite pairsMap_dom, dom_empty_L. apply (left_id_L ∅ (∪)).
Qed.

Lemma Dict_last_pair_wins_witness :
  ∃ m, Dict [VString "Title"; VString "old"; VString "Lang"; VString "en";
             VString "Title"; VString "new"] = Returns (Ok m)
       ∧ m !! "Title" = Some (VString "new")
       ∧ dom m = list_to_set ["Title"; "Lang"; "Title"].
Proof.
  apply (Dict_last_pair_wins [("Title", VString "old"); ("Lang", VString "en")] []
           "Title" (VString "new")).
  apply not_elem_of_nil.
Defined.

Lemma Dict_loop_first_bad_key (kvs : list (string * any)) key val rest : ∀ dict,
  (∀ k, key ≠ VString k) →
  Dict_loop dict (keyValues kvs ++ key :: val :: rest)
  = match reflect.ValueOf_Kind key with
    | reflect.String =>
        Panics ("interface conversion: interface {} is " +:+ typeName key +:+ ", not string")
    | _ => Returns (Err ("type must equal to " +:+ q "string"))
    end.
Proof.
  intros dict Hkey. revert dict.
  induction kvs as [|[k v] kvs IH]; intros dict.
  - cbn [keyValues flat_map app Dict_loop].
    destruct key as [| | |k| |]; try done. by destruct (Hkey k).
  - change (keyValues ((k, v) :: kvs) ++ key :: val :: rest)
      with (VString k :: v :: (keyValues kvs ++ key :: val :: rest)).
    cbn [Dict_loop reflect.ValueOf_Kind]. rewrite IH. by destruct kvs.
Qed.

(** X3.  The first key that is not a string value decides the call:
    after string keys only, a key of another kind gives the error and a
    key of a defined string type gives the panic of the assertion,
    whatever pairs follow it; the pairs stored before it are lost. *)
Theorem Dict_first_bad_key_decides (kvs : list (string * any)) key val rest :
  (∀ k, key ≠ VString k) → Nat.even (length rest) = true →
  Dict (keyValues kvs ++ key :: val :: rest)
  = match reflect.ValueOf_Kind key with
    | reflect.String =>
        Panics ("interface conversion: interface {} is " +:+ typeName key +:+ ", not string")
    | _ => Returns (Err ("type must equal to " +:+ q "string"))
    end.
Proof.
  intros Hkey Heven. unfold Dict.
  assert (length (keyValues kvs ++ key :: val :: rest) mod 2 = 0)%nat as ->.
  { apply Nat.even_spec in Heven as [n Hn].
    replace (length (keyValues kvs ++ key :: val :: rest))
      with ((length kvs + n + 1) * 2)%nat
      by (rewrite length_app, length_keyValues; cbn [length]; lia).
    apply Nat.Div0.mod_mul. }
  cbn [Nat.eqb negb]. by apply Dict_loop_first_bad_key.
Qed.

Lemma Dict_first_bad_key_decides_witness :
  Dict [VString "Title"; VString "Demo"; VInt 7; VNil;
        VDefined "template.HTML" (VString "k"); VBool true]
  = Returns (Err ("type must equal to " +:+ q "string")).
Proof.
  apply (Dict_first_bad_key_decides [("Title", VString "Demo")] (VInt 7) VNil
           [VDefined "template.HTML" (VString "k"); VBool true]); [done|].
  reflexivity.
Defined.

(** ** More about the resolver *)

Section ResolverFacts.
Variables (UrlFS diskFS : gmap string string).
Variables (allTmpl : list string) (isEmbed : bool).

Local Abbreviation readFile' := (readFile UrlFS diskFS isEmbed).
Local Abbreviation includes' := (includes UrlFS diskFS allTmpl isEmbed).
Local Abbreviation resolve' := (resolve UrlFS diskFS allTmpl isEmbed).
Local Abbreviation acyclicFrom' := (acyclicFrom UrlFS diskFS allTmpl isEmbed).

(** X4.  The resolution of a file returns, at some depth of recursion,
    exactly when no file that is reached from it through references lies
    on a cycle of references. *)
Theorem returns_iff_acyclic (p : string) :
  (∃ fuel r, resolve UrlFS diskFS allTmpl isEmbed fuel p = Some r)
  ↔ acyclicFrom UrlFS diskFS allTmpl isEmbed p.
Proof.
  split.
  - intros (fuel & r & Hres). by eapply returns_acyclic.
  - intros Hacyc. exists (S (length allTmpl)). by apply acyclic_returns.
Qed.

(** X5.  When the requested file can be read, the call never returns an
    error: the error of reading a selected candidate is dropped, and the
    candidate is in the list all the same. *)
Theorem nested_read_errors_are_dropped (fuel : nat) (p content : string)
    (r : result (list string)) :
  readFile UrlFS diskFS isEmbed p = Ok content →
  resolve UrlFS diskFS allTmpl isEmbed fuel p = Some r →
  ∃ deps, r = Ok deps ∧ ∀ t, includes UrlFS diskFS allTmpl isEmbed p t → t ∈ deps.
Proof.
  intros Hread Hres. destruct r as [deps|err].
  - exists deps. split; [done|]. intros t Ht.
    apply (resolve_elem_of _ _ _ _ _ _ _ Hres). by apply tc_once.
  - apply resolve_Err_inv in Hres. congruence.
Qed.

(** X6.  A file in which two opening braces never occur resolves to the
    empty list at once, whatever the candidates are. *)
Theorem plain_page_has_no_dependencies (fuel : nat) (p content : string) :
  readFile UrlFS diskFS isEmbed p = Ok content → hasOpenBraces content = false →
  resolve UrlFS diskFS allTmpl isEmbed (S fuel) p = Some (Ok []).
Proof.
  intros Hread Hno. rewrite resolve_S, Hread. cbv zeta.
  unfold FindAllStringSubmatch. by rewrite findAllFrom_no_braces.
Qed.

Lemma rangeAllTmpl_returns (rec : string → option (result (list string)))
    (set : gmap string string) (l : list string) :
  (∀ t, t ∈ l → is_Some (set !! filepath.Base t) → is_Some (rec t)) →
  rangeAllTmpl rec set [] l = Some (flat_map (appended rec set) l).
Proof.
  intros Hrec. destruct (rangeAllTmpl rec set [] l) as [res|] eqn:Hloop.
  - by apply rangeAllTmpl_Some in Hloop as ->.
  - apply rangeAllTmpl_None in Hloop as (t & Hin & Hsel & Hnone).
    destruct (Hrec t Hin Hsel) as [r Hr]. congruence.
Qed.

Lemma flat_map_appended_none (rec : string → option (result (list string)))
    (set : gmap string string) (l : list string) :
  (∀ c, c ∈ l → set !! filepath.Base c = None) →
  flat_map (appended rec set) l = [].
Proof.
  induction l as [|c l IH]; intros Hnone; [done|]. simpl.
  rewrite IH by (intros c' Hc'; apply Hnone; by right).
  unfold appended. rewrite Hnone by left. done.
Qed.

(** A file that includes nothing is resolved at depth one. *)
Lemma leaf_resolves (t : string) (fuel : nat) :
  (∀ t', ¬ includes' t t') →
  ∃ r, resolve' (S fuel) t = Some r ∧ nested (resolve' (S fuel)) t = [].
Proof.
  intros Hleaf. unfold nested. rewrite resolve_S.
  destruct (readFile' t) as [content|err] eqn:Hread; [|by eauto].
  cbv zeta. destruct (_ =? _)%nat eqn:Hlen; [by eauto|].
  assert (Hnone : ∀ c, c ∈ allTmpl →
            curTmplSet (FindAllStringSubmatch reTmpl content) !! filepath.Base c = None).
  { intros c Hin. destruct (_ !! filepath.Base c) as [v|] eqn:Hsel; [|done].
    destruct (Hleaf c). split; [done|]. unfold references. rewrite Hread, Hsel. eauto. }
  rewrite rangeAllTmpl_returns.
  - rewrite flat_map_appended_none by done. eauto.
  - intros c Hin [v Hsel]. rewrite Hnone in Hsel by done. done.
Qed.
(** A candidate list in which the selected files include nothing: the
    list that is returned is the selection itself. *)
Lemma flat_resolution (fuel : nat) (p content : string) :
  readFile' p = Ok content →
  (∀ t t', includes' p t → ¬ includes' t t') →
  resolve' (S (S fuel)) p
  = Some (Ok (filter (λ t, is_Some (curTmplSet (FindAllStringSubmatch reTmpl content)
                                      !! filepath.Base t)) allTmpl)).
Proof.
  intros Hread Hflat. rewrite resolve_S, Hread. cbv zeta.
  set (set := curTmplSet (FindAllStringSubmatch reTmpl content)).
  assert (Hinc : ∀ c, c ∈ allTmpl → is_Some (set !! filepath.Base c) → includes' p c).
  { intros c Hin Hsel. split; [done|]. unfold references. by rewrite Hread. }
  assert (Hflatmap : ∀ l, (∀ c, c ∈ l → c ∈ allTmpl) →
            flat_map (appended (resolve' (S fuel)) set) l
            = filter (λ t, is_Some (set !! filepath.Base t)) l).
  { induction l as [|c l IH]; intros Hl; [done|]. simpl.
    rewrite IH by (intros c' Hc'; apply Hl; by right).
    rewrite filter_cons. unfold appended.
    destruct (set !! filepath.Base c) as [v|] eqn:Hsel.
    - rewrite decide_True by eauto.
      destruct (leaf_resolves c fuel) as (r & _ & ->); [|done].
      intros t'. apply (Hflat c t'), Hinc; [apply Hl; by left|]. rewrite Hsel. eauto.
    - rewrite decide_False; [done|]. by intros [? ?]. }
  destruct (_ =? _)%nat eqn:Hlen.
  - f_equal. f_equal. symmetry. rewrite <- Hflatmap by done.
    apply flat_map_appended_none. intros c _. subst set.
    destruct (FindAllStringSubmatch reTmpl content); [|done].
    by rewrite curTmplSet_nil, lookup_empty.
  - rewrite rangeAllTmpl_returns.
    + by rewrite Hflatmap.
    + intros c Hin Hsel. destruct (leaf_resolves c fuel) as (r & -> & _); [|by eauto].
      intros t'. by apply (Hflat c t'), Hinc.
Qed.
End ResolverFacts.

Lemma nested_read_errors_are_dropped_witness :
  ∃ deps, Ok ["tmpl/gone.gohtml"] = Ok deps
          ∧ ∀ t, includes staleSite staleSite staleTmpl true "src/index.gohtml" t
                 → t ∈ deps.
Proof.
  apply (nested_read_errors_are_dropped staleSite staleSite staleTmpl true 3
           "src/index.gohtml" (tmplDirective "gone.gohtml")); by vm_compute.
Defined.

Lemma plain_page_has_no_dependencies_witness :
  resolve aboutSite aboutSite aboutTmpl true 1 "tmpl/header.gohtml" = Some (Ok []).
Proof.
  apply (plain_page_has_no_dependencies aboutSite aboutSite aboutTmpl true 0
           "tmpl/header.gohtml" "<b>header</b>"); by vm_compute.
Defined.

(** ** The earlier handler and [getAllTmplName] *)

Lemma foldl_view {A B C : Type} (f : A → B → A) (view : A → list C) (g : B → C) :
  (∀ a x, view (f a x) = view a ++ [g x]) →
  ∀ l a, view (foldl f a l) = view a ++ (g <$> l).
Proof.
  intros Hstep. induction l as [|x l IH]; intros a; simpl.
  - by rewrite app_nil_r.
  - by rewrite IH, Hstep, <- app_assoc.
Qed.

Lemma tmplMap_Name (matchList : list (list string)) :
  tmplMap matchList !!! "Name" = submatchNames matchList.
Proof.
  unfold tmplMap, submatchNames.
  rewrite (foldl_view _ (λ m : gmap string (list string), m !!! "Name")
             (λ m, nth 1 m "")).
  - by rewrite lookup_total_empty.
  - intros a x. cbn. by rewrite lookup_total_insert_eq.
Qed.

Lemma setTmpl_Name (matchList : list (list string)) :
  setTmpl (tmplMap matchList !!! "Name") = curTmplSet matchList.
Proof.
  rewrite tmplMap_Name. unfold setTmpl, curTmplSet, submatchNames.
  by rewrite foldl_fmap.
Qed.

(** X7.  The set that the earlier handler builds through [tmplMap] and
    [setTmpl] is the set [curTmplSet] of [getAllTmplName]: moving the
    code into the resolver did not change which names a file refers
    to. *)
Theorem setTmpl_is_curTmplSet (matchList : list (list string)) :
  setTmpl (tmplMap matchList !!! "Name") = curTmplSet matchList.
Proof. apply setTmpl_Name. Qed.

Lemma foldl_select (set : gmap string string) (l : list string) : ∀ acc,
  foldl (fun filterTmpl tmplFilepath =>
           match set !! filepath.Base tmplFilepath with
           | Some _ => filterTmpl ++ [tmplFilepath]
           | None => filterTmpl
           end) acc l
  = acc ++ filter (λ t, is_Some (set !! filepath.Base t)) l.
Proof.
  induction l as [|t l IH]; intros acc; simpl; [by rewrite app_nil_r|].
  rewrite IH, filter_cons. destruct (set !! filepath.Base t) as [v|].
  - rewrite decide_True by eauto. by rewrite <- app_assoc.
  - rewrite decide_False; [done|]. by intros [? ?].
Qed.

Lemma directBundle_filter (content : string) (tmplFileList : list string) (curSrc : string) :
  directBundle content tmplFileList curSrc
  = filter (λ t, is_Some (curTmplSet (FindAllStringSubmatch reTmpl content)
                            !! filepath.Base t)) tmplFileList ++ [curSrc].
Proof.
  unfold directBundle. cbv zeta. by rewrite setTmpl_Name, foldl_select.
Qed.

(** X8.  The earlier handler keeps the invariant of the bundle: from a
    candidate list without repetitions that does not hold the page, its
    bundle has no path twice, ends with the page, and keeps the order of
    the candidate list. *)
Theorem directBundle_no_duplicates (content : string) (tmplFileList : list string)
    (curSrc : string) :
  NoDup tmplFileList → curSrc ∉ tmplFileList →
  NoDup (directBundle content tmplFileList curSrc)
  ∧ last (directBundle content tmplFileList curSrc) = Some curSrc
  ∧ directBundle content tmplFileList curSrc `sublist_of` tmplFileList ++ [curSrc].
Proof.
  intros Hnd Hpage. rewrite directBundle_filter. split; [|split].
  - apply NoDup_app. split; [by apply NoDup_filter|]. split; [|apply NoDup_singleton].
    intros t [_ Ht]%list_elem_of_filter ->%list_elem_of_singleton. done.
  - apply last_snoc.
  - apply sublist_app; [apply sublist_filter|done].
Qed.

Lemma directBundle_no_duplicates_witness :
  NoDup (directBundle (lines [tmplDirective "left.gohtml"; tmplDirective "right.gohtml"])
           diamondTmpl "src/index.gohtml")
  ∧ last (directBundle (lines [tmplDirective "left.gohtml"; tmplDirective "right.gohtml"])
            diamondTmpl "src/index.gohtml") = Some "src/index.gohtml"
  ∧ directBundle (lines [tmplDirective "left.gohtml"; tmplDirective "right.gohtml"])
      diamondTmpl "src/index.gohtml" `sublist_of` diamondTmpl ++ ["src/index.gohtml"].
Proof.
  apply (directBundle_no_duplicates
           (lines [tmplDirective "left.gohtml"; tmplDirective "right.gohtml"])
           diamondTmpl "src/index.gohtml").
  - unfold diamondTmpl. repeat (apply NoDup_cons; split; [set_solver|]). apply NoDup_nil_2.
  - unfold diamondTmpl. set_solver.
Defined.

(** X9.  On a site whose selected files include nothing themselves,
    [getAllTmplName] returns at depth two and the bundle is the one the
    earlier handler computed. *)
Theorem resolver_agrees_with_direct_selection UrlFS diskFS Config tmplFileList
    (fuel : nat) (page content : string) :
  readFile UrlFS diskFS (IsEmbed Config) page = Ok content →
  (∀ t t', includes UrlFS diskFS tmplFileList (IsEmbed Config) page t →
           ¬ includes UrlFS diskFS tmplFileList (IsEmbed Config) t t') →
  resolvedBundle UrlFS diskFS Config tmplFileList (S (S fuel)) page
  = Some (Ok (directBundle content tmplFileList page)).
Proof.
  intros Hread Hflat. rewrite resolvedBundle_resolve.
  rewrite (flat_resolution _ _ _ _ _ _ _ Hread Hflat). by rewrite directBundle_filter.
Qed.

Lemma resolver_agrees_with_direct_selection_witness :
  resolvedBundle aboutSite aboutSite (demoConfig true) aboutTmpl 2 "src/about.gohtml"
  = Some (Ok (directBundle ("<h1>" +:+ tmplDirective "header.gohtml" +:+ "</h1>")
                aboutTmpl "src/about.gohtml")).
Proof.
  apply (resolver_agrees_with_direct_selection aboutSite aboutSite (demoConfig true)
           aboutTmpl 0 "src/about.gohtml"); [by vm_compute|].
  intros t t' [Ht _] [_ Hsel]. apply list_elem_of_singleton in Ht as ->.
  vm_compute in Hsel. by destruct Hsel.
Defined.

(** ** More about [path.Clean] *)

Lemma joinSlash_cons (e : string) (l : list string) :
  l ≠ [] → joinSlash (e :: l) = e +:+ String "/" (joinSlash l).
Proof. by destruct l. Qed.

Lemma joinSlash_snoc_dir (l : list string) (e : string) :
  joinSlash (l ++ [e])
  = match l with [] => "" | _ => joinSlash l +:+ "/" end +:+ e.
Proof.
  induction l as [|a l IH]; [done|].
  change ((a :: l) ++ [e]) with (a :: (l ++ [e])).
  rewrite joinSlash_cons by (by destruct l). rewrite IH.
  destruct l as [|b l].
  - cbn [joinSlash]. by rewrite append_assoc.
  - rewrite (joinSlash_cons a (b :: l)) by done.
    rewrite !append_assoc. done.
Qed.

Lemma joinSlash_splitSlash (s : string) : joinSlash (splitSlash s) = s.
Proof.
  induction s as [|c s IH]; [done|]. cbn [splitSlash].
  pose proof (splitSlash_nonempty s) as Hne.
  destruct (Ascii.eqb_spec c "/") as [->|Hc].
  - rewrite joinSlash_cons by done. by rewrite IH.
  - destruct (splitSlash s) as [|e es]; [done|].
    destruct es as [|e' es]; simpl in *; by rewrite <- IH.
Qed.

(** The elements of a path hold no slash. *)
Lemma splitSlash_element (s e : string) : e ∈ splitSlash s → splitSlash e = [e].
Proof.
  revert e. induction s as [|c s IH]; intros e.
  - by intros ->%list_elem_of_singleton.
  - cbn [splitSlash]. destruct (Ascii.eqb c "/") eqn:Hc.
    + intros [->|He]%elem_of_cons; [done|by apply IH].
    + pose proof (splitSlash_nonempty s) as Hne.
      destruct (splitSlash s) as [|e0 es]; [done|].
      intros [->|He]%elem_of_cons.
      * cbn [splitSlash]. rewrite Hc, (IH e0) by left. done.
      * apply IH. by right.
Qed.

Lemma splitSlash_joinSlash (l : list string) :
  l ≠ [] → Forall (λ e, splitSlash e = [e]) l → splitSlash (joinSlash l) = l.
Proof.
  induction l as [|e l IH]; [done|]. intros _ Hl.
  apply Forall_cons in Hl as [He Hl]. destruct l as [|e' l]; [done|].
  rewrite joinSlash_cons by done. rewrite splitSlash_append, He, IH by done. done.
Qed.


Lemma cleanStep_stack (rooted : bool) (out : list string) (e : string) :
  cleanStack rooted out → cleanStack rooted (path.cleanStep rooted out e).
Proof.
  intros (names & n & -> & Hnames & Hroot). unfold path.cleanStep.
  destruct (String.eqb_spec e "") as [->|Hnil]; [by exists names, n|].
  destruct (String.eqb_spec e ".") as [->|Hdot]; [by exists names, n|].
  cbn [orb]. destruct (String.eqb_spec e "..") as [->|Hdd].
  - destruct names as [|a names].
    + destruct n as [|n]; cbn [app replicate].
      * destruct rooted; [by exists [], 0%nat|]. by exists [], 1%nat.
      * exists [], (S (S n)). repeat split; [done|]. intros Hr. by specialize (Hroot Hr).
    + apply Forall_cons in Hnames as [(_ & _ & Ha) Hnames]. cbn [app].
      rewrite eqb_string_false by done. by exists names, n.
  - exists (e :: names), n. repeat split; [by constructor|done].
Qed.

Lemma foldl_cleanStep_stack (rooted : bool) (l : list string) : ∀ out,
  cleanStack rooted out → cleanStack rooted (foldl (path.cleanStep rooted) out l).
Proof.
  induction l as [|e l IH]; intros out Hout; [done|]. simpl.
  by apply IH, cleanStep_stack.
Qed.

Lemma cleanStack_nil (rooted : bool) : cleanStack rooted [].
Proof. by exists [], 0%nat. Qed.

Lemma foldl_cleanStep_elements (rooted : bool) (l : list string) : ∀ out x,
  x ∈ foldl (path.cleanStep rooted) out l → x ∈ out ∨ x ∈ l.
Proof.
  induction l as [|e l IH]; intros out x; simpl; [by left|].
  intros [Hx|Hx]%IH; [|right; by right].
  unfold path.cleanStep in Hx.
  destruct ((e =? "") || (e =? ".")); [by left|].
  destruct (e =? "..").
  - destruct out as [|top out].
    + destruct rooted; [by left|].
      apply list_elem_of_singleton in Hx as ->. right. by left.
    + destruct (top =? "..").
      * apply elem_of_cons in Hx as [->|Hx]; [right; by left|by left].
      * left. by right.
  - apply elem_of_cons in Hx as [->|Hx]; [right; by left|by left].
Qed.

Lemma foldl_cleanStep_names (rooted : bool) (names : list string) : ∀ acc,
  Forall realElement names →
  foldl (path.cleanStep rooted) acc names = rev names ++ acc.
Proof.
  induction names as [|e names IH]; intros acc Hnames; [done|].
  apply Forall_cons in Hnames as [He Hnames]. simpl.
  rewrite cleanStep_real, IH by done. by rewrite <- app_assoc.
Qed.

Lemma foldl_cleanStep_dotdots (n : nat) : ∀ m,
  foldl (path.cleanStep false) (replicate m "..") (replicate n "..")
  = replicate (n + m) "..".
Proof.
  induction n as [|n IH]; intros m; [done|]. cbn [replicate foldl].
  replace (path.cleanStep false (replicate m "..") "..") with (replicate (S m) "..")
    by (by destruct m).
  rewrite IH. f_equal. lia.
Qed.

Lemma rev_replicate (n : nat) (x : string) : rev (replicate n x) = replicate n x.
Proof.
  induction n as [|n IH]; [done|]. cbn [replicate rev]. rewrite IH.
  clear IH. induction n as [|n IH]; [done|]. cbn [replicate app]. by rewrite IH.
Qed.

(** Cleaning the elements that cleaning has kept changes nothing. *)
Lemma foldl_cleanStep_again (rooted : bool) (out : list string) :
  cleanStack rooted out → foldl (path.cleanStep rooted) [] (rev out) = out.
Proof.
  intros (names & n & -> & Hnames & Hroot).
  rewrite rev_app_distr, rev_replicate, foldl_app.
  assert (foldl (path.cleanStep rooted) [] (replicate n "..") = replicate n "..") as ->.
  { destruct rooted; [by rewrite Hroot|].
    pose proof (foldl_cleanStep_dotdots n 0) as Hdd. cbn [replicate] in Hdd.
    rewrite Hdd. f_equal. lia. }
  rewrite foldl_cleanStep_names by (by apply Forall_rev).
  by rewrite rev_involutive.
Qed.

Lemma prefix_slash_append (a b : string) :
  a ≠ "" → String.prefix "/" (a +:+ b) = String.prefix "/" a.
Proof.
  destruct a as [|c a]; [done|]. intros _. cbn [String.append String.prefix].
  destruct (ascii_dec "/" c); [|done]. by destruct (a +:+ b), a.
Qed.

Lemma joinSlash_empty (l : list string) :
  Forall (λ e, e ≠ "") l → joinSlash l = "" → l = [].
Proof.
  destruct l as [|e l]; [done|]. intros [He _]%Forall_cons.
  destruct l as [|e' l]; cbn [joinSlash]; [done|]. by destruct e.
Qed.

Lemma joinSlash_not_rooted (l : list string) :
  Forall (λ e, e ≠ "" ∧ splitSlash e = [e]) l →
  String.prefix "/" (joinSlash l) = false.
Proof.
  destruct l as [|e l]; [done|]. intros [[He Hsplit] _]%Forall_cons.
  assert (Hfirst : ∀ rest, String.prefix "/" (e +:+ rest) = false).
  { destruct e as [|c e]; [done|]. intros rest.
    cbn [String.append String.prefix]. destruct (ascii_dec "/" c) as [<-|]; [|done].
    cbn [splitSlash] in Hsplit.
    change (Ascii.eqb "/" "/") with true in Hsplit. cbv iota in Hsplit. congruence. }
  destruct l as [|e' l]; cbn [joinSlash]; [|by apply Hfirst].
  rewrite <- (append_nil_r e). apply Hfirst.
Qed.

Lemma cleanStack_nonempty (rooted : bool) (out : list string) :
  cleanStack rooted out → Forall (λ e, e ≠ "") out.
Proof.
  intros (names & n & -> & Hnames & _). apply Forall_app. split.
  - eapply Forall_impl; [done|]. by intros e (? & _).
  - by apply Forall_replicate.
Qed.

(** What [path.Clean] returns splits into the elements it has kept, and
    is rooted when its argument is. *)
Lemma Clean_resplit (s : string) :
  s ≠ "" →
  path.Clean s ≠ ""
  ∧ String.prefix "/" (path.Clean s) = String.prefix "/" s
  ∧ foldl (path.cleanStep (String.prefix "/" s)) [] (splitSlash (path.Clean s))
    = foldl (path.cleanStep (String.prefix "/" s)) [] (splitSlash s).
Proof.
  intros Hs. unfold path.Clean. rewrite (eqb_string_false s "") by done. cbv zeta.
  set (rooted := String.prefix "/" s).
  set (out := foldl (path.cleanStep rooted) [] (splitSlash s)).
  assert (Hstack : cleanStack rooted out)
    by apply foldl_cleanStep_stack, cleanStack_nil.
  assert (Hne : Forall (λ e, e ≠ "") (rev out))
    by apply Forall_rev, (cleanStack_nonempty rooted), Hstack.
  assert (Hsplit : Forall (λ e, splitSlash e = [e]) (rev out)).
  { apply Forall_rev, Forall_forall. intros e He.
    apply foldl_cleanStep_elements in He as [He|He]; [by apply elem_of_nil in He|].
    by eapply splitSlash_element. }
  assert (Hagain : rev out ≠ [] →
            foldl (path.cleanStep rooted) [] (splitSlash (joinSlash (rev out))) = out).
  { intros Hrev. rewrite splitSlash_joinSlash by done.
    by apply foldl_cleanStep_again. }
  assert (Hnil : rev out = [] → out = []).
  { intros Hrev. by rewrite <- (rev_involutive out), Hrev. }
  destruct rooted.
  - split; [done|]. split; [by destruct (joinSlash (rev out))|].
    cbn [String.append splitSlash].
    change (Ascii.eqb "/" "/") with true. cbv iota. cbn [foldl].
    change (path.cleanStep true [] "") with (@nil string).
    destruct (rev out) as [|e l] eqn:Hrev; [by rewrite Hnil|]. by apply Hagain.
  - destruct (rev out) as [|e l] eqn:Hrev.
    + cbn [joinSlash]. change ("" =? "") with true. cbv iota.
      split; [done|]. split; [done|]. by rewrite Hnil.
    + rewrite eqb_string_false by (intros H; by apply joinSlash_empty in H).
      split; [intros H; by apply joinSlash_empty in H|]. split; [|by apply Hagain].
      apply joinSlash_not_rooted, Forall_forall. intros x Hx.
      split; [by eapply Forall_forall in Hne|by eapply Forall_forall in Hsplit].
Qed.

(** Joining to a cleaned path is joining to the path: the stack that the
    first cleaning has left is the one the second one starts from. *)
Lemma Clean_Clean_append (s y : string) :
  s ≠ "" → path.Clean (path.Clean s +:+ String "/" y) = path.Clean (s +:+ String "/" y).
Proof.
  intros Hs. destruct (Clean_resplit s Hs) as (Hne & Hroot & Hstack).
  assert (Hnil : ∀ a : string, a ≠ "" → (a +:+ String "/" y =? "") = false).
  { intros a Ha. apply eqb_string_false. by destruct a. }
  unfold path.Clean at 1 3. rewrite !Hnil by done. cbv zeta.
  rewrite !splitSlash_append, !foldl_app, !prefix_slash_append by done.
  by rewrite Hroot, Hstack.
Qed.

(** ** More about the path mapping *)

Lemma routePath_noext (p : string) :
  filepath.Ext p = "" →
  routePath p = htmlToGohtml (path.Join [path.Join ["./src"; p]; "index.html"]).
Proof. intros Hext. unfold routePath. by rewrite Hext. Qed.

Lemma routePath_html (p : string) :
  filepath.Ext p = ".html" → routePath p = htmlToGohtml (path.Join ["./src"; p]).
Proof. intros Hext. unfold routePath. by rewrite Hext. Qed.

Lemma routePath_gohtml (p : string) :
  filepath.Ext p = ".gohtml" →
  routePath p = Returns (RenderTemplate (path.Join ["./src"; p])).
Proof. intros Hext. unfold routePath. by rewrite Hext. Qed.

Lemma routePath_other (p : string) :
  filepath.Ext p ≠ "" → filepath.Ext p ≠ ".html" → filepath.Ext p ≠ ".gohtml" →
  routePath p = Returns Default.
Proof. intros H1 H2 H3. unfold routePath. by rewrite !eqb_string_false. Qed.

Lemma Clean_nonempty (s : string) : path.Clean s ≠ "".
Proof.
  destruct (decide (s = "")) as [->|Hs]; [done|]. by apply Clean_resplit.
Qed.

(** The index file is joined to the cleaned path as to the path. *)
Lemma Join_Join_index (p : string) :
  path.Join [path.Join ["./src"; p]; "index.html"]
  = path.Join ["./src"; p +:+ "/index.html"].
Proof.
  rewrite (Join_two "./src" p), (Join_two "./src" (p +:+ "/index.html")) by done.
  rewrite Join_two by apply Clean_nonempty.
  rewrite Clean_Clean_append by done.
  rewrite append_assoc. reflexivity.
Qed.

Lemma last_snoc_default (l : list string) (e d : string) : List.last (l ++ [e]) d = e.
Proof. apply last_last. Qed.

Lemma Ext_index (p : string) : filepath.Ext (p +:+ "/index.html") = ".html".
Proof.
  unfold filepath.Ext.
  change (p +:+ "/index.html") with (p +:+ String "/" "index.html").
  rewrite splitSlash_append. change (splitSlash "index.html") with ["index.html"].
  by rewrite last_snoc_default.
Qed.

Lemma routePath_index (p : string) :
  filepath.Ext p = "" → routePath p = routePath (p +:+ "/index.html").
Proof.
  intros Hext. rewrite routePath_noext by done.
  rewrite (routePath_html (p +:+ "/index.html")) by apply Ext_index.
  by rewrite Join_Join_index.
Qed.

Lemma splitSlash_append_name (s x : string) : ∀ l e,
  splitSlash s = l ++ [e] → splitSlash x = [x] →
  splitSlash (s +:+ x) = l ++ [e +:+ x].
Proof.
  induction s as [|c s IH]; intros l e Hs Hx.
  - destruct l as [|a [|b l]]; simplify_eq/=. done.
  - cbn [String.append splitSlash] in *.
    pose proof (splitSlash_nonempty s) as Hne.
    destruct (Ascii.eqb c "/").
    + destruct l as [|a l]; [by destruct (splitSlash s); simplify_eq/=|].
      simplify_eq/=. by erewrite IH.
    + destruct (splitSlash s) as [|e0 es] eqn:Hsplit; [done|].
      destruct l as [|a l]; simplify_eq/=.
      * by rewrite (IH [] e0).
      * by rewrite (IH (e0 :: l) e).
Qed.

Lemma fromLastDot_append_ext (e t : string) :
  fromLastDot t = "" → fromLastDot (e +:+ String "." t) = String "." t.
Proof.
  intros Ht. induction e as [|c e IH].
  - cbn [String.append fromLastDot]. by rewrite Ht.
  - cbn [String.append fromLastDot]. by rewrite IH.
Qed.

Lemma Ext_append_ext (stem t : string) :
  fromLastDot t = "" → splitSlash t = [t] →
  filepath.Ext (stem +:+ String "." t) = String "." t.
Proof.
  intros Hdot Hslash. unfold filepath.Ext.
  destruct (last_snoc_inv (splitSlash stem) (splitSlash_nonempty stem)) as [l Hl].
  rewrite (splitSlash_append_name stem (String "." t) l _ Hl).
  - rewrite last_snoc_default. by apply fromLastDot_append_ext.
  - cbn [splitSlash]. change (Ascii.eqb "." "/") with false. cbv iota. by rewrite Hslash.
Qed.

(** The directory part that [path.Clean] puts before a last element that
    is a name depends on the elements before it only. *)
Lemma Clean_last_dir (s : string) (l : list string) (e : string) :
  splitSlash s = l ++ [e] → realElement e →
  let stack := rev (foldl (path.cleanStep (String.prefix "/" s)) [] l) in
  path.Clean s
  = (if String.prefix "/" s then "/" else "")
    +:+ match stack with [] => "" | _ => joinSlash stack +:+ "/" end +:+ e.
Proof.
  intros Hs He. cbv zeta. unfold path.Clean.
  destruct (s =? "") eqn:Hnil.
  { apply String.eqb_eq in Hnil as ->. destruct l as [|? [|? ?]]; simplify_eq/=.
    by destruct He. }
  cbv zeta. rewrite Hs, foldl_app. cbn [foldl]. rewrite cleanStep_real by done.
  cbn [rev]. rewrite joinSlash_snoc_dir.
  destruct (String.prefix "/" s); [done|].
  rewrite eqb_string_false; [done|].
  intros Hb. apply append_eq_nil in Hb. by destruct He.
Qed.

Lemma name_with_ext (e t : string) :
  (2 ≤ String.length t)%nat → realElement (e +:+ String "." t).
Proof.
  intros Hlen.
  repeat split; intros H; apply (f_equal String.length) in H;
    rewrite length_append in H; cbn [String.length] in H; lia.
Qed.

Lemma htmlToGohtml_dot_html (x : string) :
  htmlToGohtml (x +:+ ".html") = Returns (RenderTemplate (x +:+ ".gohtml")).
Proof.
  change (x +:+ ".html") with (x +:+ "." +:+ "html").
  rewrite <- append_assoc, htmlToGohtml_html. by rewrite append_assoc.
Qed.

Lemma src_not_rooted (x : string) : String.prefix "/" ("./src" +:+ x) = false.
Proof. done. Qed.

Lemma splitSlash_src (p : string) (l : list string) (e : string) :
  splitSlash p = l ++ [e] →
  splitSlash ("./src" +:+ String "/" p) = ("." :: "src" :: l) ++ [e].
Proof. intros Hp. by rewrite splitSlash_append, Hp. Qed.

Lemma routePath_html_alias (stem : string) :
  routePath (stem +:+ ".html") = routePath (stem +:+ ".gohtml").
Proof.
  rewrite routePath_html by (by apply (Ext_append_ext stem "html")).
  rewrite routePath_gohtml by (by apply (Ext_append_ext stem "gohtml")).
  rewrite !Join_two by done.
  destruct (last_snoc_inv (splitSlash stem) (splitSlash_nonempty stem)) as [l Hl].
  set (e := List.last (splitSlash stem) "") in *.
  rewrite (Clean_last_dir _ ("." :: "src" :: l) (e +:+ ".html")).
  - rewrite (Clean_last_dir _ ("." :: "src" :: l) (e +:+ ".gohtml")).
    + rewrite !src_not_rooted.
      set (stack := rev (foldl (path.cleanStep false) [] ("." :: "src" :: l))).
      rewrite <- !append_assoc. apply htmlToGohtml_dot_html.
    + apply splitSlash_src. by apply splitSlash_append_name.
    + apply name_with_ext. cbn. lia.
  - apply splitSlash_src. by apply splitSlash_append_name.
  - apply name_with_ext. cbn. lia.
Qed.

Lemma foldl_cleanStep_grows (rooted : bool) (l : list string) : ∀ acc,
  ".." ∉ l → ∃ names, foldl (path.cleanStep rooted) acc l = names ++ acc.
Proof.
  induction l as [|e l IH]; intros acc Hl; [by exists []|].
  apply not_elem_of_cons in Hl as [He Hl]. cbn [foldl].
  destruct (IH (path.cleanStep rooted acc e) Hl) as [names ->].
  unfold path.cleanStep. destruct ((e =? "") || (e =? ".")); [by exists names|].
  rewrite (eqb_string_false e "..") by done.
  exists (names ++ [e]). by rewrite <- app_assoc.
Qed.

(** Without double dots in the request, the joined path stays below
    [src]. *)
Lemma Clean_src_confined (p : string) (l : list string) (e : string) :
  splitSlash p = l ++ [e] → realElement e → ".." ∉ l →
  ∃ mid, path.Clean ("./src" +:+ String "/" p) = "src/" +:+ mid +:+ e.
Proof.
  intros Hp He Hl.
  rewrite (Clean_last_dir _ ("." :: "src" :: l) e) by (by apply splitSlash_src || done).
  rewrite src_not_rooted. cbn [foldl].
  change (path.cleanStep false (path.cleanStep false [] ".") "src") with ["src"].
  destruct (foldl_cleanStep_grows false l ["src"] Hl) as [names ->].
  rewrite rev_app_distr. cbn [rev app].
  destruct (rev names) as [|a rest] eqn:Hrev.
  - by exists "".
  - rewrite (joinSlash_cons "src" (a :: rest)) by done.
    exists (joinSlash (a :: rest) +:+ "/"). cbn [String.append]. by rewrite !append_assoc.
Qed.

Lemma Join_src_last (p : string) (l : list string) (e : string) :
  splitSlash p = l ++ [e] → realElement e →
  (∃ dir, path.Join ["./src"; p] = dir +:+ e)
  ∧ (".." ∉ l → ∃ mid, path.Join ["./src"; p] = "src/" +:+ mid +:+ e).
Proof.
  intros Hp He. rewrite Join_two by done. split.
  - apply (Clean_last_element _ ("." :: "src" :: l)); [by apply splitSlash_src|done].
  - by apply Clean_src_confined.
Qed.

(** The shape of the source paths that [routePath] hands to the
    renderer. *)
Lemma routePath_confined (URLPath curSrc : string) :
  routePath URLPath = Returns (RenderTemplate curSrc) →
  (∃ stem, curSrc = stem +:+ ".gohtml")
  ∧ (".." ∉ splitSlash URLPath → ∃ rest, curSrc = "src/" +:+ rest).
Proof.
  intros Hroute.
  destruct (decide (filepath.Ext URLPath = "")) as [Hnone|Hnone].
  { rewrite routePath_index, routePath_html in Hroute by (done || apply Ext_index).
    destruct (Join_src_last (URLPath +:+ "/index.html") (splitSlash URLPath) "index.html")
      as [[dir Hdir] Hconf]; [apply (splitSlash_append URLPath "index.html")|done|].
    split.
    - exists (dir +:+ "index"). rewrite Hdir in Hroute.
      change (dir +:+ "index.html") with (dir +:+ "index" +:+ ".html") in Hroute.
      rewrite <- append_assoc, htmlToGohtml_dot_html in Hroute. congruence.
    - intros Hdd. destruct (Hconf Hdd) as [mid Hmid]. rewrite Hmid in Hroute.
      change ("src/" +:+ mid +:+ "index.html")
        with ("src/" +:+ (mid +:+ "index" +:+ ".html")) in Hroute.
      rewrite <- !append_assoc, htmlToGohtml_dot_html in Hroute.
      exists (mid +:+ "index" +:+ ".gohtml").
      rewrite !append_assoc in Hroute. congruence. }
  destruct (last_snoc_inv (splitSlash URLPath) (splitSlash_nonempty URLPath)) as [l Hl].
  destruct (fromLastDot_suffix (List.last (splitSlash URLPath) "")) as [pre Hpre].
  fold (filepath.Ext URLPath) in Hpre.
  assert (Hdots : ".." ∉ splitSlash URLPath → ".." ∉ l).
  { intros Hdd Hin. apply Hdd. rewrite Hl. apply elem_of_app. by left. }
  destruct (decide (filepath.Ext URLPath = ".html")) as [Hhtml|Hhtml].
  { rewrite routePath_html in Hroute by done.
    destruct (Join_src_last URLPath l _ Hl) as [[dir Hdir] Hconf].
    { apply Ext_real; by rewrite Hhtml. }
    rewrite Hpre, Hhtml in Hdir, Hconf. split.
    - exists (dir +:+ pre). rewrite Hdir, <- append_assoc, htmlToGohtml_dot_html in Hroute.
      congruence.
    - intros Hdd. destruct (Hconf (Hdots Hdd)) as [mid Hmid].
      rewrite Hmid, <- !append_assoc, htmlToGohtml_dot_html in Hroute.
      exists (mid +:+ pre +:+ ".gohtml"). rewrite !append_assoc in Hroute. congruence. }
  destruct (decide (filepath.Ext URLPath = ".gohtml")) as [Hgo|Hgo].
  { rewrite routePath_gohtml in Hroute by done.
    destruct (Join_src_last URLPath l _ Hl) as [[dir Hdir] Hconf].
    { apply Ext_real; by rewrite Hgo. }
    rewrite Hpre, Hgo in Hdir, Hconf. split.
    - exists (dir +:+ pre). rewrite Hdir, <- append_assoc in Hroute. congruence.
    - intros Hdd. destruct (Hconf (Hdots Hdd)) as [mid Hmid].
      exists (mid +:+ pre +:+ ".gohtml"). rewrite Hmid in Hroute. congruence. }
  by rewrite routePath_other in Hroute.
Qed.

(** X10.  Every source path that the handler renders ends in [.gohtml];
    when no element of the request path is a double dot, as in the
    paths that the multiplexer hands over, the source path lies below
    [src]. *)
Theorem rendered_source_is_confined (URLPath curSrc : string) :
  routePath URLPath = Returns (RenderTemplate curSrc) →
  (∃ stem, curSrc = stem +:+ ".gohtml")
  ∧ (".." ∉ splitSlash URLPath → ∃ rest, curSrc = "src/" +:+ rest).
Proof. apply routePath_confined. Qed.

Lemma rendered_source_is_confined_witness :
  (∃ stem, "src/docs/about.gohtml" = stem +:+ ".gohtml")
  ∧ (".." ∉ splitSlash "/docs/about.html" → ∃ rest, "src/docs/about.gohtml" = "src/" +:+ rest).
Proof.
  apply (rendered_source_is_confined "/docs/about.html" "src/docs/about.gohtml").
  by vm_compute.
Defined.

(** With a double dot the request leaves [src]: the confinement rests on
    the cleaning of request paths before the handler is called. *)
Lemma double_dot_leaves_src :
  routePath "/../main.gohtml" = Returns (RenderTemplate "main.gohtml").
Proof. by vm_compute. Qed.

(** X11.  A request for [x.html] is answered as the request for
    [x.gohtml] is: both are mapped to the same source file. *)
Theorem html_request_is_gohtml_request {engine : TemplateEngine}
    UrlFS diskFS Config tmplFileList (fuel : nat) (stem : string) (w : ResponseWriter) :
  handler UrlFS diskFS Config tmplFileList fuel (stem +:+ ".html") w
  = handler UrlFS diskFS Config tmplFileList fuel (stem +:+ ".gohtml") w.
Proof. unfold handler. by rewrite routePath_html_alias. Qed.

(** X12.  A request path without an extension is answered as the request
    for the file [index.html] below it is. *)
Theorem directory_request_is_index_request {engine : TemplateEngine}
    UrlFS diskFS Config tmplFileList (fuel : nat) (URLPath : string) (w : ResponseWriter) :
  filepath.Ext URLPath = "" →
  handler UrlFS diskFS Config tmplFileList fuel URLPath w
  = handler UrlFS diskFS Config tmplFileList fuel (URLPath +:+ "/index.html") w.
Proof. intros Hext. unfold handler. by rewrite routePath_index. Qed.

Lemma directory_request_is_index_request_witness :
  handler aboutSite aboutSite (demoConfig true) aboutTmpl 3 "/" newResponse
  = handler aboutSite aboutSite (demoConfig true) aboutTmpl 3 ("/" +:+ "/index.html")
      newResponse.
Proof.
  apply (directory_request_is_index_request aboutSite aboutSite (demoConfig true)
           aboutTmpl 3 "/" newResponse).
  by vm_compute.
Defined.

(** X13.  For every other extension the handler does nothing: the file
    server of the [default] case is built and not called, so the
    response is left as it was, without status, header or body, and
    nothing is printed. *)
Theorem other_extensions_write_nothing {engine : TemplateEngine}
    UrlFS diskFS Config tmplFileList (fuel : nat) (URLPath : string) (w : ResponseWriter) :
  filepath.Ext URLPath ≠ "" → filepath.Ext URLPath ≠ ".html" →
  filepath.Ext URLPath ≠ ".gohtml" →
  handler UrlFS diskFS Config tmplFileList fuel URLPath w = Some (Returns (w, "")).
Proof. intros H1 H2 H3. unfold handler. by rewrite routePath_other. Qed.

Lemma other_extensions_write_nothing_witness :
  handler aboutSite aboutSite (demoConfig false) aboutTmpl 0 "/robots.txt" newResponse
  = Some (Returns (newResponse, "")).
Proof.
  apply (other_extensions_write_nothing aboutSite aboutSite (demoConfig false)
           aboutTmpl 0 "/robots.txt" newResponse); by vm_compute.
Defined.

(** ** The collectors *)

Lemma names_nonempty (s : string) : Forall realElement (splitSlash s) → s ≠ "".
Proof. intros Hs ->. apply Forall_cons in Hs as [(He & _) _]. done. Qed.

Lemma names_split (s : string) :
  Forall realElement (splitSlash s) →
  Forall (λ e, e ≠ "" ∧ splitSlash e = [e]) (splitSlash s).
Proof.
  intros Hs. apply Forall_forall. intros e He. split.
  - rewrite Forall_forall in Hs. by destruct (Hs e He).
  - by apply (splitSlash_element s).
Qed.

(** [path.Clean] leaves a path of names as it is. *)
Lemma Clean_names (s : string) :
  Forall realElement (splitSlash s) → path.Clean s = s.
Proof.
  intros Hs. pose proof (names_nonempty s Hs) as Hne.
  assert (Hroot : String.prefix "/" s = false).
  { rewrite <- (joinSlash_splitSlash s) at 1.
    by apply joinSlash_not_rooted, names_split. }
  unfold path.Clean. rewrite (eqb_string_false s "") by done. cbv zeta.
  rewrite Hroot, foldl_cleanStep_names by done.
  rewrite app_nil_r, rev_involutive, joinSlash_splitSlash.
  by rewrite (eqb_string_false s "").
Qed.

Lemma names_child (dir name : string) :
  Forall realElement (splitSlash dir) → realElement name → splitSlash name = [name] →
  Forall realElement (splitSlash (dir +:+ String "/" name)).
Proof.
  intros Hdir Hname Hsplit. rewrite splitSlash_append, Hsplit.
  apply Forall_app. split; [done|]. by apply Forall_singleton.
Qed.

(** [path.Join] of a path of names and a name. *)
Lemma Join_names (dir name : string) :
  Forall realElement (splitSlash dir) → realElement name → splitSlash name = [name] →
  path.Join [dir; name] = dir +:+ String "/" name.
Proof.
  intros Hdir Hname Hsplit.
  rewrite Join_two by (by apply names_nonempty).
  by apply Clean_names, names_child.
Qed.

Lemma isName_real (e : string) : isName e = true ↔ realElement e.
Proof.
  unfold isName, realElement.
  destruct (String.eqb_spec e ""), (String.eqb_spec e "."), (String.eqb_spec e "..");
    simpl; naive_solver.
Qed.

Lemma ValidPath_names (s : string) :
  Forall realElement (splitSlash s) → ValidPath s = true.
Proof.
  intros Hs. unfold ValidPath. apply orb_true_iff. right.
  apply forallb_forall. intros e He%list_elem_of_In.
  rewrite Forall_forall in Hs. by apply isName_real, Hs.
Qed.

Lemma embedOpen_names (fs : list (string * node)) (s : string) :
  Forall realElement (splitSlash s) → embedOpen fs s = lookupNode fs (splitSlash s).
Proof.
  intros Hs. unfold embedOpen. rewrite ValidPath_names by done.
  destruct (String.eqb_spec s ".") as [->|]; [|done].
  apply Forall_cons in Hs as [(_ & ? & _) _]. done.
Qed.

Lemma find_entry (entries : list (string * node)) (name : string) (n : node) :
  NoDup entries.*1 → (name, n) ∈ entries →
  List.find (λ entry, entry.1 =? name) entries = Some (name, n).
Proof.
  induction entries as [|[name' n'] entries IH]; intros Hnd Hin.
  - by apply elem_of_nil in Hin.
  - apply NoDup_cons in Hnd as [Hfresh Hnd]. simpl in *.
    destruct (String.eqb_spec name' name) as [->|Hne].
    + apply elem_of_cons in Hin as [Heq|Hin]; [by simplify_eq|].
      destruct Hfresh. apply list_elem_of_fmap. by exists (name, n).
    + apply elem_of_cons in Hin as [Heq|Hin]; [by simplify_eq|]. by apply IH.
Qed.

Lemma find_entry_None (entries : list (string * node)) (name : string) :
  name ∉ entries.*1 → List.find (λ entry, entry.1 =? name) entries = None.
Proof.
  induction entries as [|[name' n'] entries IH]; intros Hnot; [done|].
  simpl in *. apply not_elem_of_cons in Hnot as [Hne Hnot].
  destruct (String.eqb_spec name' name) as [->|_]; [done|]. by apply IH.
Qed.

(** The entry of a directory is found under the path of the directory
    and its name. *)
Lemma lookupNode_child (name : string) (n : node) (entries : list (string * node)) :
  ∀ (elems : list string) (fs : list (string * node)),
  lookupNode fs elems = Some (Dir entries) →
  NoDup entries.*1 → (name, n) ∈ entries →
  lookupNode fs (elems ++ [name]) = Some n.
Proof.
  induction elems as [|e elems IH]; intros fs Hdir Hnd Hin.
  - simpl in Hdir. simplify_eq. simpl. rewrite (find_entry _ _ n) by done.
    by destruct n.
  - simpl in *. destruct (List.find _ fs) as [[name' [content|sub]]|]; [| |done].
    + by destruct elems.
    + by apply IH.
Qed.

Lemma wellFormed_entry (entries : list (string * node)) (name : string) (n : node) :
  wellFormed (Dir entries) → (name, n) ∈ entries →
  realElement name ∧ splitSlash name = [name] ∧ wellFormed n.
Proof.
  intros [_ Hall]. induction entries as [|entry entries IH]; intros Hin.
  - by apply elem_of_nil in Hin.
  - destruct Hall as [Hentry Hall].
    apply elem_of_cons in Hin as [<-|Hin]; [done|by apply IH].
Qed.

Lemma wellFormed_NoDup (entries : list (string * node)) :
  wellFormed (Dir entries) → NoDup entries.*1.
Proof. by intros [? _]. Qed.

Lemma find_elem_of (entries : list (string * node)) (name : string) entry :
  List.find (λ entry, entry.1 =? name) entries = Some entry → entry ∈ entries.
Proof.
  intros [Hin _]%find_some. by apply list_elem_of_In.
Qed.

Lemma lookupNode_wellFormed : ∀ (elems : list string) (fs : list (string * node)) (n : node),
  wellFormed (Dir fs) → lookupNode fs elems = Some n → wellFormed n.
Proof.
  induction elems as [|e elems IH]; intros fs n Hwf Hn.
  - simpl in Hn. by simplify_eq.
  - simpl in Hn. destruct (List.find _ fs) as [[name' child]|] eqn:Hfind; [|done].
    apply find_elem_of in Hfind.
    destruct (wellFormed_entry _ _ _ Hwf Hfind) as (_ & _ & Hchild).
    destruct child as [content|sub].
    + destruct elems; by simplify_eq.
    + by apply (IH sub).
Qed.

Lemma height_entry (entries : list (string * node)) (name : string) (n : node) :
  (name, n) ∈ entries → (height n < height (Dir entries))%nat.
Proof.
  intros Hin. simpl. apply Nat.lt_succ_r.
  induction entries as [|entry entries IH]; [by apply elem_of_nil in Hin|].
  simpl. apply elem_of_cons in Hin as [<-|Hin]; [simpl; lia|].
  specialize (IH Hin). lia.
Qed.

(** The loop over the entries of a directory, when the recursive calls
    return the listings of the sub-directories. *)
Lemma rangeDirEntries_listing (rec : string → option (result (list string)))
    (dirName : string) (isRecursive : bool) (entries : list (string * node)) :
  Forall realElement (splitSlash dirName) →
  wellFormed (Dir entries) →
  ∀ (rest : list (string * node)) (filepathList : list string),
  rest ⊆ entries →
  (∀ name sub, (name, Dir sub) ∈ rest → isRecursive = true →
     rec (dirName +:+ String "/" name)
     = Some (Ok (listing isRecursive (dirName +:+ String "/" name) (Dir sub)))) →
  rangeDirEntries rec dirName isRecursive filepathList rest
  = Some (filepathList ++ listing isRecursive dirName (Dir rest)).
Proof.
  intros Hdir Hwf. induction rest as [|[name n] rest IH]; intros acc Hsub Hrec.
  - simpl. by rewrite app_nil_r.
  - assert (Hin : (name, n) ∈ entries) by (apply Hsub; by left).
    destruct (wellFormed_entry _ _ _ Hwf Hin) as (Hname & Hsplit & _).
    assert (Hrest : rest ⊆ entries) by (intros x Hx; apply Hsub; by right).
    assert (Hrec' : ∀ name sub, (name, Dir sub) ∈ rest → isRecursive = true →
              rec (dirName +:+ String "/" name)
              = Some (Ok (listing isRecursive (dirName +:+ String "/" name) (Dir sub)))).
    { intros name' sub' Hin'. apply Hrec. by right. }
    cbn [rangeDirEntries fst snd]. rewrite Join_names by done.
    destruct n as [content|sub]; cbn [IsDir].
    + rewrite IH by done. cbn [listing flat_map fst snd]. by rewrite <- app_assoc.
    + destruct isRecursive eqn:Hr.
      * rewrite (Hrec name sub) by (done || by left). rewrite IH by done.
        cbn [listing flat_map fst snd]. by rewrite <- app_assoc.
      * rewrite IH by done. done.
Qed.

(** The embedded collector returns the listing of the directory. *)
Lemma CollectFilesFromFS_listing (fs : list (string * node)) (isRecursive : bool) :
  wellFormed (Dir fs) →
  ∀ (fuel : nat) (dirName : string) (entries : list (string * node)),
  Forall realElement (splitSlash dirName) →
  lookupNode fs (splitSlash dirName) = Some (Dir entries) →
  (height (Dir entries) ≤ fuel)%nat →
  CollectFilesFromFS fuel fs dirName isRecursive
  = Some (Ok (listing isRecursive dirName (Dir entries))).
Proof.
  intros Hfs. induction fuel as [|fuel IH]; intros dirName entries Hdir Hlook Hfuel.
  - simpl in Hfuel. lia.
  - assert (Hwf : wellFormed (Dir entries)) by by eapply lookupNode_wellFormed.
    cbn [CollectFilesFromFS]. unfold embed_ReadDir.
    rewrite embedOpen_names, Hlook by done.
    rewrite (rangeDirEntries_listing _ dirName isRecursive entries); [done..| |].
    + done.
    + intros name sub Hin _.
      destruct (wellFormed_entry _ _ _ Hwf Hin) as (Hname & Hsplit & _).
      apply IH.
      * by apply names_child.
      * rewrite splitSlash_append, Hsplit.
        eapply lookupNode_child; [done| |done]. by apply wellFormed_NoDup.
      * pose proof (height_entry _ _ _ Hin). lia.
Qed.

Lemma listing_entries (dir : string) (entries : list (string * node)) :
  listing true dir (Dir entries)
  = flat_map (λ entry, listing true (dir +:+ String "/" entry.1) entry.2) entries.
Proof.
  cbn [listing]. apply flat_map_ext. intros [name [content|sub]]; done.
Qed.

Lemma os_Lstat_names (disk : list (string * node)) (s : string) :
  Forall realElement (splitSlash s) → os_Lstat disk s = lookupNode disk (splitSlash s).
Proof.
  intros Hs. unfold os_Lstat. rewrite Clean_names by done.
  destruct (String.eqb_spec s ".") as [->|]; [|done].
  apply Forall_cons in Hs as [(_ & ? & _) _]. done.
Qed.

(** A name is joined to a path as to the cleaned path. *)
Lemma Join_cleaned (path name : string) :
  path ≠ "" → Forall realElement (splitSlash (path.Clean path)) →
  realElement name → splitSlash name = [name] →
  path.Join [path; name] = path.Clean path +:+ String "/" name.
Proof.
  intros Hne Hclean Hname Hsplit.
  rewrite Join_two, <- Clean_Clean_append by done.
  by apply Clean_names, names_child.
Qed.

(** The loop of the walk over the names of a directory. *)
Lemma walkNames_listing
    (rec : string → node → list string → option (outcome (list string)))
    (disk : list (string * node)) (path : string) (entries : list (string * node)) :
  path ≠ "" → Forall realElement (splitSlash (path.Clean path)) →
  lookupNode disk (splitSlash (path.Clean path)) = Some (Dir entries) →
  wellFormed (Dir entries) →
  ∀ (rest : list (string * node)) (filepathList : list string),
  rest ⊆ entries →
  (∀ name n acc, (name, n) ∈ rest →
     rec (path.Clean path +:+ String "/" name) n acc
     = Some (Returns (acc ++ listing true (path.Clean path +:+ String "/" name) n))) →
  walkNames rec disk path filepathList rest.*1
  = Some (Returns (filepathList ++ listing true (path.Clean path) (Dir rest))).
Proof.
  intros Hne Hclean Hlook Hwf.
  induction rest as [|[name n] rest IH]; intros acc Hsub Hrec.
  - simpl. by rewrite app_nil_r.
  - assert (Hin : (name, n) ∈ entries) by (apply Hsub; by left).
    destruct (wellFormed_entry _ _ _ Hwf Hin) as (Hname & Hsplit & _).
    assert (Hrest : rest ⊆ entries) by (intros x Hx; apply Hsub; by right).
    cbn [fmap list_fmap fst walkNames]. rewrite Join_cleaned by done.
    rewrite os_Lstat_names by (by apply names_child).
    rewrite splitSlash_append, Hsplit.
    rewrite (lookupNode_child name n entries) by (done || by apply wellFormed_NoDup).
    rewrite Hrec by (by left). rewrite IH; [|done|].
    + rewrite !listing_entries. cbn [flat_map fst snd]. by rewrite <- app_assoc.
    + intros name' n' acc' Hin'. apply Hrec. by right.
Qed.

(** The walk below a path appends the listing of what is there. *)
Lemma walk_listing (disk : list (string * node)) :
  ∀ (fuel : nat) (path : string) (info : node) (filepathList : list string),
  path ≠ "" → Forall realElement (splitSlash (path.Clean path)) →
  lookupNode disk (splitSlash (path.Clean path)) = Some info →
  wellFormed info →
  (height info < fuel)%nat →
  walk fuel disk path info filepathList
  = Some (Returns (filepathList ++ match info with
                                   | File _ => [path]
                                   | Dir _ => listing true (path.Clean path) info
                                   end)).
Proof.
  induction fuel as [|fuel IH]; intros path info acc Hne Hclean Hlook Hwf Hfuel; [lia|].
  destruct info as [content|entries]; [done|].
  cbn [walk collectFn IsDir].
  apply (walkNames_listing _ disk path entries); [done..|].
  intros name n acc' Hin.
  destruct (wellFormed_entry _ _ _ Hwf Hin) as (Hname & Hsplit & Hn).
  pose proof (names_child _ _ Hclean Hname Hsplit) as Hchild.
  pose proof (Clean_names _ Hchild) as Hid.
  rewrite IH.
  - rewrite Hid. by destruct n.
  - by apply names_nonempty.
  - by rewrite Hid.
  - rewrite Hid, splitSlash_append, Hsplit.
    eapply lookupNode_child; [done| |done]. by apply wellFormed_NoDup.
  - done.
  - pose proof (height_entry _ _ _ Hin). lia.
Qed.

Lemma lookupNode_names : ∀ (elems : list string) (fs : list (string * node)) (n : node),
  wellFormed (Dir fs) → lookupNode fs elems = Some n →
  Forall (λ e, realElement e ∧ splitSlash e = [e]) elems.
Proof.
  induction elems as [|e elems IH]; intros fs n Hwf Hn; [done|].
  simpl in Hn. destruct (List.find _ fs) as [[name' child]|] eqn:Hfind; [|done].
  pose proof (find_some _ _ Hfind) as [_ Heq]. simpl in Heq.
  apply String.eqb_eq in Heq as ->.
  apply find_elem_of in Hfind.
  destruct (wellFormed_entry _ _ _ Hwf Hfind) as (Hname & Hsplit & Hchild).
  apply Forall_cons. split; [done|].
  destruct child as [content|sub].
  - destruct elems; [done|by simplify_eq].
  - by apply (IH sub n).
Qed.

Lemma embedOpen_inv (fs : list (string * node)) (dirName : string) (n : node) :
  embedOpen fs dirName = Some n → dirName ≠ "." →
  Forall realElement (splitSlash dirName) ∧ lookupNode fs (splitSlash dirName) = Some n.
Proof.
  unfold embedOpen, ValidPath. intros Hopen Hdot.
  rewrite (eqb_string_false dirName ".") in Hopen by done. simpl in Hopen.
  destruct (forallb isName (splitSlash dirName)) eqn:Hvalid; [|done].
  split; [|done]. apply Forall_forall. intros e He%list_elem_of_In.
  apply isName_real. by apply (proj1 (forallb_forall _ _) Hvalid).
Qed.

Lemma os_Lstat_inv (disk : list (string * node)) (dir : string) (n : node) :
  wellFormed (Dir disk) → os_Lstat disk dir = Some n → path.Clean dir ≠ "." →
  dir ≠ "" ∧ Forall realElement (splitSlash (path.Clean dir))
  ∧ lookupNode disk (splitSlash (path.Clean dir)) = Some n.
Proof.
  unfold os_Lstat. intros Hwf Hstat Hdot.
  rewrite (eqb_string_false (path.Clean dir) ".") in Hstat by done.
  split; [by intros ->|]. split; [|done].
  eapply Forall_impl; [by eapply lookupNode_names|]. by intros e [? _].
Qed.

(** The paths of a recursive listing are the paths of the regular files
    that are reached from the directory. *)
Lemma listing_spec : ∀ (h : nat) (dir : string) (entries : list (string * node)) (p : string),
  (height (Dir entries) ≤ h)%nat → wellFormed (Dir entries) →
  p ∈ listing true dir (Dir entries)
  ↔ ∃ elems content, elems ≠ []
      ∧ p = dir +:+ String "/" (joinSlash elems)
      ∧ lookupNode entries elems = Some (File content).
Proof.
  induction h as [|h IH]; intros dir entries p Hh Hwf; [simpl in Hh; lia|].
  rewrite listing_entries, list_elem_of_In, in_flat_map. split.
  - intros ([name n] & Hin%list_elem_of_In & Hp%list_elem_of_In). cbn [fst snd] in Hp.
    pose proof (find_entry _ _ _ (wellFormed_NoDup _ Hwf) Hin) as Hfind.
    destruct (wellFormed_entry _ _ _ Hwf Hin) as (_ & _ & Hn).
    pose proof (height_entry _ _ _ Hin) as Hlt.
    destruct n as [content|sub].
    + apply list_elem_of_singleton in Hp as ->.
      exists [name], content. simpl. by rewrite Hfind.
    + apply (IH _ sub) in Hp as (elems & content & Hne & -> & Hlook); [|lia|done].
      exists (name :: elems), content. split; [done|]. split.
      * rewrite joinSlash_cons by done. by rewrite append_assoc.
      * simpl. by rewrite Hfind.
  - intros (elems & content & Hne & -> & Hlook).
    destruct elems as [|name rest]; [done|]. simpl in Hlook.
    destruct (List.find _ entries) as [[name' n]|] eqn:Hfind; [|done].
    pose proof (find_some _ _ Hfind) as [_ Heq]. simpl in Heq.
    apply String.eqb_eq in Heq as ->.
    apply find_elem_of in Hfind. exists (name, n). split; [by apply list_elem_of_In|].
    apply list_elem_of_In. cbn [fst snd].
    destruct (wellFormed_entry _ _ _ Hwf Hfind) as (_ & _ & Hn).
    pose proof (height_entry _ _ _ Hfind) as Hlt.
    destruct n as [content'|sub].
    + destruct rest; [|done]. by apply list_elem_of_singleton.
    + apply (IH _ sub); [lia|done|].
      exists rest, content. split; [by intros ->|]. split; [|done].
      rewrite joinSlash_cons by (by intros ->). by rewrite append_assoc.
Qed.

(** Every path of a listing continues the path of its directory. *)
Lemma listing_elements : ∀ (h : nat) (dir : string) (n : node) (p : string),
  (height n ≤ h)%nat → wellFormed n → p ∈ listing true dir n →
  ∃ tail, splitSlash p = splitSlash dir ++ tail.
Proof.
  induction h as [|h IH]; intros dir n p Hh Hwf Hp.
  - destruct n as [content|entries]; [|simpl in Hh; lia].
    apply list_elem_of_singleton in Hp as ->. exists []. by rewrite app_nil_r.
  - destruct n as [content|entries].
    + apply list_elem_of_singleton in Hp as ->. exists []. by rewrite app_nil_r.
    + rewrite listing_entries, list_elem_of_In, in_flat_map in Hp.
      destruct Hp as ([name n] & Hin%list_elem_of_In & Hp%list_elem_of_In).
      destruct (wellFormed_entry _ _ _ Hwf Hin) as (_ & Hsplit & Hn).
      pose proof (height_entry _ _ _ Hin) as Hlt. cbn [fst snd] in Hp.
      apply IH in Hp as [tail Hp]; [|lia|done].
      rewrite splitSlash_append, Hsplit, <- app_assoc in Hp. by eexists.
Qed.

(** No path is listed twice. *)
Lemma listing_NoDup : ∀ (h : nat) (dir : string) (n : node),
  (height n ≤ h)%nat → wellFormed n → NoDup (listing true dir n).
Proof.
  induction h as [|h IH]; intros dir n Hh Hwf.
  - destruct n as [content|entries]; [apply NoDup_singleton|simpl in Hh; lia].
  - destruct n as [content|entries]; [apply NoDup_singleton|].
    rewrite listing_entries.
    assert (Hsub : entries ⊆ entries) by done. revert Hsub.
    pose proof (wellFormed_NoDup _ Hwf) as Hnd. revert Hnd.
    generalize entries at 1 2 4. intros rest.
    induction rest as [|[name child] rest IHrest]; intros Hnd Hsub; [apply NoDup_nil_2|].
    assert (Hin : (name, child) ∈ entries) by (apply Hsub; by left).
    destruct (wellFormed_entry _ _ _ Hwf Hin) as (_ & Hsplit & Hchild).
    pose proof (height_entry _ _ _ Hin) as Hlt.
    apply NoDup_cons in Hnd as [Hfresh Hnd]. cbn [flat_map fst snd].
    apply NoDup_app. split; [apply IH; [lia|done]|]. split.
    + intros p Hp Hp'. apply list_elem_of_In, in_flat_map in Hp'.
      destruct Hp' as ([name' child'] & Hin'%list_elem_of_In & Hp'%list_elem_of_In).
      cbn [fst snd] in Hp'.
      assert (Hin'' : (name', child') ∈ entries) by (apply Hsub; by right).
      destruct (wellFormed_entry _ _ _ Hwf Hin'') as (_ & Hsplit' & Hchild').
      pose proof (height_entry _ _ _ Hin'') as Hlt'.
      apply (listing_elements h) in Hp as [tail Hp]; [|lia|done].
      apply (listing_elements h) in Hp' as [tail' Hp']; [|lia|done].
      rewrite Hp, !splitSlash_append, Hsplit, Hsplit', <- !app_assoc in Hp'.
      apply app_inv_head in Hp'. simplify_eq/=.
      destruct Hfresh. apply list_elem_of_fmap. by exists (name', child').
    + apply IHrest; [done|]. intros x Hx. apply Hsub. by right.
Qed.

(** The sample tree is well formed. *)
Lemma sampleTree_wellFormed : wellFormed (Dir sampleTree).
Proof.
  cbn [wellFormed sampleTree fold_right fst snd fmap list_fmap].
  repeat split; try discriminate; by apply (bool_decide_unpack _).
Qed.

(** X14.  Called on a directory of a well-formed archive, with fuel for
    its height, the embedded collector returns the files below the
    directory in the order of a walk that descends into a directory as
    soon as it meets it; without recursion, the files of the directory
    itself.  Every path continues the directory name as it was given. *)
Theorem embedded_collector_lists_directory (fs : list (string * node))
    (dirName : string) (entries : list (string * node)) (isRecursive : bool)
    (fuel : nat) :
  wellFormed (Dir fs) → embedOpen fs dirName = Some (Dir entries) → dirName ≠ "." →
  (height (Dir entries) ≤ fuel)%nat →
  CollectFilesFromFS fuel fs dirName isRecursive
  = Some (Ok (listing isRecursive dirName (Dir entries))).
Proof.
  intros Hwf Hopen Hdot Hfuel.
  destruct (embedOpen_inv _ _ _ Hopen Hdot) as [Hnames Hlook].
  by apply CollectFilesFromFS_listing.
Qed.

Lemma embedded_collector_lists_directory_witness :
  CollectFilesFromFS 2 sampleTree "tmpl" false
  = Some (Ok ["tmpl/footer.gohtml"; "tmpl/header.gohtml"]).
Proof.
  apply (embedded_collector_lists_directory sampleTree "tmpl"
           [ ("base", Dir [ ("head.gohtml", File "<head/>");
                            ("nav.gohtml", File "<nav/>") ]);
             ("footer.gohtml", File "<footer/>");
             ("header.gohtml", File "<header/>") ] false 2).
  - apply sampleTree_wellFormed.
  - reflexivity.
  - discriminate.
  - simpl. lia.
Defined.

(** X15.  Called on a directory of a well-formed working directory, with
    fuel for its height, the walking collector returns the same listing
    and no error.  Its paths continue the cleaned directory name: a
    leading dot element of the argument is not part of them. *)
Theorem walk_collector_lists_directory (disk : list (string * node))
    (dir : string) (entries : list (string * node)) (fuel : nat) :
  wellFormed (Dir disk) → os_Lstat disk dir = Some (Dir entries) →
  path.Clean dir ≠ "." → (height (Dir entries) < fuel)%nat →
  CollectFiles fuel disk dir
  = Some (Returns (Ok (listing true (path.Clean dir) (Dir entries)))).
Proof.
  intros Hwf Hstat Hdot Hfuel.
  destruct (os_Lstat_inv _ _ _ Hwf Hstat Hdot) as (Hne & Hnames & Hlook).
  unfold CollectFiles, Walk. rewrite Hstat.
  rewrite (walk_listing disk fuel dir (Dir entries) []); [done..| |done].
  by eapply lookupNode_wellFormed.
Qed.

Lemma walk_collector_lists_directory_witness :
  CollectFiles 3 sampleTree "./tmpl/base"
  = Some (Returns (Ok ["tmpl/base/head.gohtml"; "tmpl/base/nav.gohtml"])).
Proof.
  apply (walk_collector_lists_directory sampleTree "./tmpl/base"
           [ ("head.gohtml", File "<head/>"); ("nav.gohtml", File "<nav/>") ] 3).
  - apply sampleTree_wellFormed.
  - reflexivity.
  - by vm_compute.
  - simpl. lia.
Defined.

Lemma os_Lstat_tmpl (disk : list (string * node)) :
  os_Lstat disk "./tmpl" = lookupNode disk ["tmpl"].
Proof. done. Qed.

Lemma embedOpen_tmpl (fs : list (string * node)) :
  embedOpen fs "tmpl" = lookupNode fs ["tmpl"].
Proof. done. Qed.

(** The candidate list of [initURL] over a tree with a directory
    [tmpl]. *)
Lemma initURL_tmplFileList_listing (archive disk : list (string * node))
    (entries : list (string * node)) (fuel : nat) (isEmbed : bool) :
  wellFormed (Dir (if isEmbed then archive else disk)) →
  lookupNode (if isEmbed then archive else disk) ["tmpl"] = Some (Dir entries) →
  (height (Dir entries) < fuel)%nat →
  initURL_tmplFileList fuel archive disk isEmbed
  = Some (Returns (listing true "tmpl" (Dir entries))).
Proof.
  intros Hwf Hlook Hfuel. unfold initURL_tmplFileList. destruct isEmbed.
  - rewrite (CollectFilesFromFS_listing archive true Hwf fuel "tmpl" entries);
      [done| |done|lia].
    repeat constructor; discriminate.
  - unfold CollectFiles, Walk. rewrite os_Lstat_tmpl, Hlook.
    rewrite (walk_listing disk fuel "./tmpl" (Dir entries) []); [done|done| |done| |done].
    + repeat constructor; discriminate.
    + by eapply lookupNode_wellFormed.
Qed.

(** X16.  When the archive holds the tree of the working directory, and
    the tree has a directory [tmpl], [initURL] computes the same
    candidate list in both modes, in the same order. *)
Theorem candidate_list_same_in_both_modes (tree : list (string * node))
    (entries : list (string * node)) (fuel : nat) (isEmbed : bool) :
  wellFormed (Dir tree) → lookupNode tree ["tmpl"] = Some (Dir entries) →
  (height (Dir entries) < fuel)%nat →
  initURL_tmplFileList fuel tree tree isEmbed
  = Some (Returns (listing true "tmpl" (Dir entries))).
Proof.
  intros Hwf Hlook Hfuel.
  apply initURL_tmplFileList_listing; by destruct isEmbed.
Qed.

Lemma candidate_list_same_in_both_modes_witness :
  initURL_tmplFileList 3 sampleTree sampleTree false
  = Some (Returns ["tmpl/base/head.gohtml"; "tmpl/base/nav.gohtml";
                   "tmpl/footer.gohtml"; "tmpl/header.gohtml"]).
Proof.
  apply (candidate_list_same_in_both_modes sampleTree
           [ ("base", Dir [ ("head.gohtml", File "<head/>");
                            ("nav.gohtml", File "<nav/>") ]);
             ("footer.gohtml", File "<footer/>");
             ("header.gohtml", File "<header/>") ] 3 false).
  - apply sampleTree_wellFormed.
  - reflexivity.
  - simpl. lia.
Defined.

(** X17.  Without a directory [tmpl] in the working directory, the
    start in disk mode ends in the function handed to the walk, which
    asks the missing file information whether it is a directory: the
    walk returns no error that [initURL] could raise. *)
Theorem missing_directory_panics_in_walk (archive disk : list (string * node))
    (fuel : nat) :
  lookupNode disk ["tmpl"] = None →
  initURL_tmplFileList fuel archive disk false
  = Some (Panics "runtime error: invalid memory address or nil pointer dereference").
Proof.
  intros Hlook. unfold initURL_tmplFileList, CollectFiles, Walk.
  by rewrite os_Lstat_tmpl, Hlook.
Qed.

Lemma missing_directory_panics_in_walk_witness :
  initURL_tmplFileList 0 sampleTree [("src", Dir [])] false
  = Some (Panics "runtime error: invalid memory address or nil pointer dereference").
Proof.
  apply (missing_directory_panics_in_walk sampleTree [("src", Dir [])] 0). reflexivity.
Defined.

(** X18.  The recursive collector returns every regular file below the
    directory, under the directory name followed by the names on the way
    to the file, and returns no path twice. *)
Theorem collected_paths_are_the_files_below (fs : list (string * node))
    (dirName : string) (entries : list (string * node)) (fuel : nat) :
  wellFormed (Dir fs) → embedOpen fs dirName = Some (Dir entries) → dirName ≠ "." →
  (height (Dir entries) ≤ fuel)%nat →
  ∃ filepathList,
    CollectFilesFromFS fuel fs dirName true = Some (Ok filepathList)
    ∧ NoDup filepathList
    ∧ ∀ p, p ∈ filepathList
           ↔ ∃ elems content, elems ≠ []
               ∧ p = dirName +:+ String "/" (joinSlash elems)
               ∧ lookupNode entries elems = Some (File content).
Proof.
  intros Hwf Hopen Hdot Hfuel.
  destruct (embedOpen_inv _ _ _ Hopen Hdot) as [Hnames Hlook].
  assert (Hdir : wellFormed (Dir entries)) by by eapply lookupNode_wellFormed.
  exists (listing true dirName (Dir entries)). split; [|split].
  - by apply CollectFilesFromFS_listing.
  - by apply (listing_NoDup fuel).
  - intros p. by apply (listing_spec fuel).
Qed.

Lemma collected_paths_are_the_files_below_witness :
  ∃ filepathList,
    CollectFilesFromFS 2 sampleTree "tmpl" true = Some (Ok filepathList)
    ∧ NoDup filepathList
    ∧ ∀ p, p ∈ filepathList
           ↔ ∃ elems content, elems ≠ []
               ∧ p = "tmpl" +:+ String "/" (joinSlash elems)
               ∧ lookupNode [ ("base", Dir [ ("head.gohtml", File "<head/>");
                                             ("nav.gohtml", File "<nav/>") ]);
                              ("footer.gohtml", File "<footer/>");
                              ("header.gohtml", File "<header/>") ] elems
                 = Some (File content).
Proof.
  apply (collected_paths_are_the_files_below sampleTree "tmpl"
           [ ("base", Dir [ ("head.gohtml", File "<head/>");
                            ("nav.gohtml", File "<nav/>") ]);
             ("footer.gohtml", File "<footer/>");
             ("header.gohtml", File "<header/>") ] 2).
  - apply sampleTree_wellFormed.
  - reflexivity.
  - discriminate.
  - simpl. lia.
Defined.

(** X19.  The page that a request without double dots renders is not
    one of the candidates that [initURL] collected, and the candidates
    differ from each other: the list that the earlier handler parses,
    the selected candidates and then the page, holds no path twice. *)
Theorem rendered_page_is_no_candidate (archive disk : list (string * node))
    (entries : list (string * node)) (fuel : nat) (isEmbed : bool)
    (URLPath curSrc : string) :
  wellFormed (Dir (if isEmbed then archive else disk)) →
  lookupNode (if isEmbed then archive else disk) ["tmpl"] = Some (Dir entries) →
  (height (Dir entries) < fuel)%nat →
  routePath URLPath = Returns (RenderTemplate curSrc) →
  ".." ∉ splitSlash URLPath →
  ∃ tmplFileList,
    initURL_tmplFileList fuel archive disk isEmbed = Some (Returns tmplFileList)
    ∧ (curSrc ∉ tmplFileList)
    ∧ ∀ content, NoDup (directBundle content tmplFileList curSrc).
Proof.
  intros Hwf Hlook Hfuel Hroute Hdd.
  assert (Hdir : wellFormed (Dir entries)) by by eapply lookupNode_wellFormed.
  destruct (routePath_confined _ _ Hroute) as [_ Hsrc].
  destruct (Hsrc Hdd) as [rest ->].
  assert (Hpage : "src/" +:+ rest ∉ listing true "tmpl" (Dir entries)).
  { intros (elems & content & _ & Heq & _)%(listing_spec fuel); [|lia|done].
    discriminate. }
  exists (listing true "tmpl" (Dir entries)). split; [|split].
  - by apply initURL_tmplFileList_listing.
  - done.
  - intros content. rewrite directBundle_filter. apply NoDup_app. split.
    + apply NoDup_filter, (listing_NoDup fuel); [lia|done].
    + split; [|apply NoDup_singleton].
      intros t [_ Ht]%list_elem_of_filter ->%list_elem_of_singleton. done.
Qed.

Lemma rendered_page_is_no_candidate_witness :
  ∃ tmplFileList,
    initURL_tmplFileList 3 sampleTree [] true = Some (Returns tmplFileList)
    ∧ ("src/about.gohtml" ∉ tmplFileList)
    ∧ ∀ content, NoDup (directBundle content tmplFileList "src/about.gohtml").
Proof.
  apply (rendered_page_is_no_candidate sampleTree []
           [ ("base", Dir [ ("head.gohtml", File "<head/>");
                            ("nav.gohtml", File "<nav/>") ]);
             ("footer.gohtml", File "<footer/>");
             ("header.gohtml", File "<header/>") ] 3 true
           "/about.html" "src/about.gohtml").
  - apply sampleTree_wellFormed.
  - reflexivity.
  - simpl. lia.
  - by vm_compute.
  - by apply (bool_decide_unpack _).
Defined.

(** ** The two stores are kept apart *)

Lemma rangeAllTmpl_ext (rec1 rec2 : string → option (result (list string)))
    (set : gmap string string) (l : list string) :
  (∀ t, rec1 t = rec2 t) →
  ∀ acc, rangeAllTmpl rec1 set acc l = rangeAllTmpl rec2 set acc l.
Proof.
  intros Hrec. induction l as [|t l IH]; intros acc; simpl; [done|].
  destruct (set !! filepath.Base t); [|by apply IH].
  rewrite Hrec. destruct (rec2 t); [apply IH|done].
Qed.

(** In embedded mode the resolver reads the archive only, in disk mode
    the working directory only. *)
Lemma getAllTmplName_store (UrlFS UrlFS' diskFS diskFS' : gmap string string)
    (allTmpl : list string) (isEmbed : bool) :
  (if isEmbed then UrlFS = UrlFS' else diskFS = diskFS') →
  ∀ fuel filePath,
  getAllTmplName UrlFS diskFS fuel filePath allTmpl isEmbed
  = getAllTmplName UrlFS' diskFS' fuel filePath allTmpl isEmbed.
Proof.
  intros Hstore. induction fuel as [|fuel IH]; intros filePath; [done|].
  cbn [getAllTmplName].
  assert (Hread : (if isEmbed then UrlFS_ReadFile UrlFS filePath
                   else os_ReadFile diskFS filePath)
                  = (if isEmbed then UrlFS_ReadFile UrlFS' filePath
                     else os_ReadFile diskFS' filePath)).
  { destruct isEmbed; by rewrite Hstore. }
  rewrite Hread.
  destruct (if isEmbed then UrlFS_ReadFile UrlFS' filePath
            else os_ReadFile diskFS' filePath) as [content|err]; [|done].
  cbv zeta. destruct (length (regexp.FindAllStringSubmatch reTmpl content) =? 0)%nat; [done|].
  by rewrite (rangeAllTmpl_ext _ _ _ _ IH).
Qed.

(** X20.  The mode decides which store the handler reads, for the
    resolution and for the parsing alike: in embedded mode the answer
    does not depend on the working directory, and in disk mode it does
    not depend on the archive. *)
Theorem handler_reads_one_store {engine : TemplateEngine}
    (UrlFS UrlFS' diskFS diskFS' : gmap string string) (Config : ConfigT)
    (tmplFileList : list string) (fuel : nat) (URLPath : string) (w : ResponseWriter) :
  (if IsEmbed Config then UrlFS = UrlFS' else diskFS = diskFS') →
  handler UrlFS diskFS Config tmplFileList fuel URLPath w
  = handler UrlFS' diskFS' Config tmplFileList fuel URLPath w.
Proof.
  intros Hstore. unfold handler. destruct (routePath URLPath) as [[curSrc|]|msg]; [|done..].
  f_equal. unfold renderTemplate, resolvedBundle, compileBundle. cbv zeta.
  rewrite (getAllTmplName_store UrlFS UrlFS' diskFS diskFS' _ _ Hstore).
  destruct (IsEmbed Config); by rewrite Hstore.
Qed.

Lemma handler_reads_one_store_witness :
  handler aboutSite ∅ (demoConfig true) aboutTmpl 3 "/about.html" newResponse
  = handler aboutSite cycleSite (demoConfig true) aboutTmpl 3 "/about.html" newResponse.
Proof.
  apply (handler_reads_one_store aboutSite aboutSite ∅ cycleSite (demoConfig true)
           aboutTmpl 3 "/about.html" newResponse).
  reflexivity.
Defined.

(** ** Directives on lines of their own

    Where every line of a file holds one directive at most, the
    extractor finds every directive. *)

#[local] Arguments Ascii.eqb !a !b : simpl nomatch.

Lemma star_app_Some {R : Type} (p : ascii → bool) (k : string → option R)
    (a b : string) (r : R) :
  allBytes p a = true → star p b k = Some r → star p (a +:+ b) k = Some r.
Proof.
  intros Ha Hb. induction a as [|c a IH]; [done|].
  simpl in *. apply andb_true_iff in Ha as [-> Ha]. by rewrite IH.
Qed.

Lemma star_None {R : Type} (p : ascii → bool) (k : string → option R)
    (P : string → Prop) :
  (∀ c s, P (String c s) → p c = true → P s) →
  (∀ s, P s → k s = None) →
  ∀ s, P s → star p s k = None.
Proof.
  intros Htail Hk. induction s as [|c s IH]; intros Hs; simpl; [by apply Hk|].
  destruct (p c) eqn:Hc; [|by apply Hk].
  rewrite IH by by eapply Htail. by apply Hk.
Qed.

(** The bytes of a directive and what follows it. *)
Lemma tmplDirectiveWith_bytes (name args rest : string) :
  tmplDirectiveWith name args +:+ rest
  = "{{template " +:+ String dquote (name +:+ String dquote (String " " (args +:+ String "}" (String "}" rest)))).
Proof.
  unfold tmplDirectiveWith, q. simpl. rewrite !append_assoc. simpl.
  do 13 f_equal. rewrite !append_assoc. simpl. reflexivity.
Qed.


Lemma allBytes_impl (p p' : ascii → bool) (s : string) :
  (∀ c, p c = true → p' c = true) → allBytes p s = true → allBytes p' s = true.
Proof.
  intros Hp. induction s as [|c s IH]; simpl; [done|].
  intros [Hc Hs]%andb_true_iff. by rewrite (Hp c Hc), IH.
Qed.

Lemma reTmpl_reEnd : reTmpl = reTmplWith reEnd.
Proof. reflexivity. Qed.

Section Directive.
Context {R : Type}.
Variable e : Regexp.
Hypothesis e_fails : ∀ s caps (k : string → list string → option R),
  noCloseOnLine s = true → backtrack e s caps k = None.
Hypothesis e_one : ∀ s caps (k : string → list string → option R),
  noCloseOnLine s = true → backtrack e (String "}" s) caps k = None.
Hypothesis e_close : ∀ s caps (k : string → list string → option R),
  backtrack e (String "}" (String "}" s)) caps k = k s caps.

Lemma backtrack_directive (name args rest : string) (caps : list string)
    (k : string → list string → option R) (r : R) :
  allBytes (noneOf ["("; ")"; " "]%char) name = true →
  allBytes (noneOf [newline]) args = true →
  noCloseOnLine rest = true →
  k rest (<[1%nat := name]> caps) = Some r →
  backtrack (reTmplWith e) (tmplDirectiveWith name args +:+ rest) caps k = Some r.
Proof.
  intros Hname Hargs Hrest Hk.
  assert (Hany : ∀ caps', star (accepts OpAnyCharNotNL) rest
                            (λ s, backtrack e s caps' k) = None).
  { intros caps'. apply (star_None _ _ (λ s, noCloseOnLine s = true)); [| |done].
    - intros c s Hs Hc. simpl in *. apply negb_true_iff in Hc. rewrite Hc in Hs.
      by apply andb_true_iff in Hs as [_ ?].
    - intros s Hs. by apply e_fails. }
  assert (Hclose : ∀ caps', star (accepts OpAnyCharNotNL) (String "}" (String "}" rest))
                              (λ s, backtrack e s caps' k) = k rest caps').
  { intros caps'. simpl. by rewrite Hany, e_one, e_close. }
  rewrite tmplDirectiveWith_bytes. unfold reTmplWith. simpl.
  apply star_app_Some; [done|].
  simpl. unfold consumed. rewrite dropSuffix_append.
  rewrite (star_app_Some _ _ args _ r).
  - done.
  - eapply allBytes_impl; [|exact Hargs]. intros c. unfold noneOf. simpl.
    by rewrite orb_false_r.
  - by rewrite Hclose.
Qed.
End Directive.

Lemma reEnd_close {R : Type} (s : string) caps (k : string → list string → option R) :
  backtrack reEnd (String "}" (String "}" s)) caps k = k s caps.
Proof. done. Qed.

Ltac split_bytes :=
  repeat match goal with
         | |- context [Ascii.eqb ?a ?b] =>
             destruct (Ascii.eqb_spec a b); subst; simpl in *
         end.

Lemma reEnd_one {R : Type} (s : string) caps (k : string → list string → option R) :
  noCloseOnLine s = true → backtrack reEnd (String "}" s) caps k = None.
Proof.
  intros Hs. destruct s as [|c s]; simpl in *; [done|]. by split_bytes.
Qed.

Lemma reEnd_fails {R : Type} (s : string) caps (k : string → list string → option R) :
  noCloseOnLine s = true → backtrack reEnd s caps k = None.
Proof.
  intros Hs. destruct s as [|c1 [|c2 [|c3 [|c4 s]]]]; simpl in *; split_bytes; done.
Qed.

Lemma matchAt_directive (name args rest : string) :
  allBytes (noneOf ["("; ")"; " "]%char) name = true →
  allBytes (noneOf [newline]) args = true →
  noCloseOnLine rest = true →
  matchAt reTmpl (tmplDirectiveWith name args +:+ rest)
  = Some ([tmplDirectiveWith name args; name], rest).
Proof.
  intros Hname Hargs Hrest. unfold matchAt. rewrite reTmpl_reEnd at 1.
  apply (backtrack_directive reEnd); try done.
  - apply @reEnd_fails.
  - apply @reEnd_one.
  - unfold consumed. by rewrite dropSuffix_append.
Qed.


Lemma findAllFrom_skip (re : Regexp) (a b : string) :
  findAllFrom re (a +:+ b) (String.length a) = findAllFrom re b 0.
Proof. induction a as [|c a IH]; [by destruct b|]. simpl. apply IH. Qed.

Lemma findAllFrom_match (re : Regexp) (a rest : string) (m : list string) :
  a ≠ "" → matchAt re (a +:+ rest) = Some (m, rest) →
  findAllFrom re (a +:+ rest) 0 = m :: findAllFrom re rest 0.
Proof.
  intros Ha Hm. destruct a as [|c a]; [done|].
  change (String c a +:+ rest) with (String c (a +:+ rest)) in *.
  cbn [findAllFrom]. rewrite Hm. f_equal.
  replace (String.length (String c (a +:+ rest)) - String.length rest - 1)%nat
    with (String.length a) by (cbn [String.length]; rewrite length_append; lia).
  apply findAllFrom_skip.
Qed.

Lemma matchAt_reTmpl_other (c : ascii) (s : string) :
  c ≠ "{"%char → matchAt reTmpl (String c s) = None.
Proof.
  intros Hc. destruct (matchAt reTmpl (String c s)) as [r|] eqn:Hm; [|done].
  destruct (matchAt_reTmpl_open (String c s)) as [s' [= -> _]]; [by rewrite Hm|done].
Qed.

Lemma noneOf_cons (c a : ascii) (cs : list ascii) :
  noneOf (a :: cs) c = true → c ≠ a ∧ noneOf cs c = true.
Proof.
  unfold noneOf. simpl. intros [Ha Hcs]%negb_true_iff%orb_false_iff.
  split; [|by rewrite Hcs]. intros ->. by rewrite Ascii.eqb_refl in Ha.
Qed.

Lemma findAllFrom_plain (a b : string) :
  allBytes (noneOf ["{"%char]) a = true →
  findAllFrom reTmpl (a +:+ b) 0 = findAllFrom reTmpl b 0.
Proof.
  induction a as [|c a IH]; [done|]. simpl.
  intros [[Hc _]%noneOf_cons Ha]%andb_true_iff.
  rewrite matchAt_reTmpl_other by done. by apply IH.
Qed.

(** What follows a line: nothing, or a newline and the other lines. *)
Lemma lines_cons (t : string) (ts : list string) :
  lines (t :: ts)
  = t +:+ match ts with [] => "" | _ => String newline (lines ts) end.
Proof. destruct ts; [by rewrite append_nil_r|done]. Qed.

Lemma findAllFrom_next_line (ts : list string) :
  findAllFrom reTmpl (match ts with [] => "" | _ => String newline (lines ts) end) 0
  = findAllFrom reTmpl (lines ts) 0.
Proof.
  destruct ts as [|t ts]; [done|]. cbn [findAllFrom].
  by rewrite matchAt_reTmpl_other.
Qed.

Lemma noCloseOnLine_after (after : string) (ts : list string) :
  allBytes (noneOf ["{"; "}"]%char) after = true →
  noCloseOnLine
    (after +:+ match ts with [] => "" | _ => String newline (lines ts) end) = true.
Proof.
  induction after as [|c after IH]; simpl.
  - intros _. by destruct ts.
  - intros [[_ [Hc _]%noneOf_cons]%noneOf_cons Hafter]%andb_true_iff.
    rewrite IH by done. apply orb_true_iff. right.
    apply andb_true_iff. split; [|done]. apply negb_true_iff.
    by destruct (Ascii.eqb_spec c "}").
Qed.

Lemma tmplDirectiveWith_nonempty (name args : string) : tmplDirectiveWith name args ≠ "".
Proof. done. Qed.

(** The matches in a file whose lines hold one directive at most. *)
Lemma findAll_lines (ls : list Line) :
  Forall (λ l, simpleLine l = true) ls →
  FindAllStringSubmatch reTmpl (lines (lineText <$> ls)) = omap lineMatch ls.
Proof.
  unfold FindAllStringSubmatch.
  induction ls as [|l ls IH]; intros Hls; [done|].
  apply Forall_cons in Hls as [Hl Hls]. specialize (IH Hls).
  rewrite fmap_cons, lines_cons.
  destruct l as [text|before name args after]; cbn [lineText] in *.
  - change (omap lineMatch (Plain text :: ls)) with (omap lineMatch ls).
    rewrite findAllFrom_plain by done. by rewrite findAllFrom_next_line.
  - change (omap lineMatch (Include before name args after :: ls))
      with ([tmplDirectiveWith name args; name] :: omap lineMatch ls).
    cbn [simpleLine] in Hl.
    apply andb_true_iff in Hl as [[[Hbefore Hname]%andb_true_iff Hargs]%andb_true_iff Hafter].
    rewrite !append_assoc. rewrite findAllFrom_plain by done.
    rewrite (findAllFrom_match _ _ _ [tmplDirectiveWith name args; name]).
    + f_equal. rewrite findAllFrom_plain; [by rewrite findAllFrom_next_line|].
      eapply allBytes_impl; [|exact Hafter]. intros c Hc.
      apply noneOf_cons in Hc as [Hc _]. unfold noneOf. simpl.
      rewrite orb_false_r. apply negb_true_iff. by destruct (Ascii.eqb_spec c "{").
    + apply tmplDirectiveWith_nonempty.
    + apply matchAt_directive; [done..|]. by apply noCloseOnLine_after.
Qed.

Lemma submatchNames_lines (ls : list Line) :
  submatchNames (omap lineMatch ls) = omap lineName ls.
Proof.
  induction ls as [|[text|before name args after] ls IH]; [done|done|].
  change (omap lineMatch (Include before name args after :: ls))
    with ([tmplDirectiveWith name args; name] :: omap lineMatch ls).
  change (omap lineName (Include before name args after :: ls))
    with (name :: omap lineName ls).
  by rewrite <- IH.
Qed.

(** The set of a file whose lines hold one directive at most: the names
    of its directives. *)
Lemma curTmplSet_lines (ls : list Line) (name : string) :
  Forall (λ l, simpleLine l = true) ls →
  curTmplSet (FindAllStringSubmatch reTmpl (lines (lineText <$> ls))) !! name
  = if decide (name ∈ omap lineName ls) then Some name else None.
Proof.
  intros Hls. by rewrite findAll_lines, curTmplSet_lookup, submatchNames_lines.
Qed.

(** X21.  In a file whose lines each hold one directive at most, with
    no brace in the text around it, the extractor finds one match for
    every directive, in the order of the lines, and its set holds
    exactly the names of the directives: a name that several lines
    include is one key of the set. *)
Theorem extractor_one_directive_per_line (ls : list Line) :
  Forall (λ l, simpleLine l = true) ls →
  FindAllStringSubmatch reTmpl (lines (lineText <$> ls)) = omap lineMatch ls
  ∧ dom (curTmplSet (FindAllStringSubmatch reTmpl (lines (lineText <$> ls))))
    = list_to_set (omap lineName ls).
Proof.
  intros Hls. split; [by apply findAll_lines|].
  by rewrite findAll_lines, curTmplSet_dom, submatchNames_lines.
Qed.

Lemma extractor_one_directive_per_line_witness :
  FindAllStringSubmatch reTmpl
    (lines (lineText <$> [Include "<nav>" "nav.gohtml" "." "</nav>";
                          Plain "<p>text</p>";
                          Include "" "logo.gohtml" ".Site" "";
                          Include "<footer>" "nav.gohtml" "." "</footer>"]))
  = [[tmplDirectiveWith "nav.gohtml" "."; "nav.gohtml"];
     [tmplDirectiveWith "logo.gohtml" ".Site"; "logo.gohtml"];
     [tmplDirectiveWith "nav.gohtml" "."; "nav.gohtml"]]
  ∧ dom (curTmplSet (FindAllStringSubmatch reTmpl
           (lines (lineText <$> [Include "<nav>" "nav.gohtml" "." "</nav>";
                                 Plain "<p>text</p>";
                                 Include "" "logo.gohtml" ".Site" "";
                                 Include "<footer>" "nav.gohtml" "." "</footer>"]))))
    = list_to_set ["nav.gohtml"; "logo.gohtml"; "nav.gohtml"].
Proof.
  apply (extractor_one_directive_per_line
           [Include "<nav>" "nav.gohtml" "." "</nav>";
            Plain "<p>text</p>";
            Include "" "logo.gohtml" ".Site" "";
            Include "<footer>" "nav.gohtml" "." "</footer>"]).
  by repeat constructor.
Defined.
